(** * SQL to relational algebra converter: parseSQL and convertToRelationalAlgebra

    Shallow embedding of [src/components/relational-algebra-converter.tsx].

    A string is a sequence of UTF-16 code units, as in JavaScript.  The
    classes of the regular expressions are those of ECMAScript without
    the [u] and [s] flags: [\s] is the white space and line terminator
    code points, [\w] is [A-Za-z0-9_], [.] is every code unit but the
    four line terminators, and a letter of a pattern with the [i] flag is
    compared through [Canonicalize].  [toUpperCase] maps the code points
    of the string through the uppercase mappings of the Unicode Character
    Database (version 14.0, tabulated below).

    The regular expressions of the source are terms of [re]; [run] is a
    backtracking matcher with the priorities of the ECMAScript matcher
    (alternatives left to right, greedy and lazy repetition, optional
    groups, lookahead without backtracking into it, captures).

    The effect of the component that calls the two functions and its
    three panels are in [Converter]; [executeQuery] of [src/app/page.tsx]
    is in [Page], over the database object taken through the methods it
    calls. *)

From Stdlib Require Import NArith List Bool Arith Lia Strings.Byte.
Import ListNotations.

(** ** Code units and strings *)

Declare Scope cu_scope.
Delimit Scope cu_scope with cu.
Declare Scope js_scope.
Delimit Scope js_scope with js.

(** a UTF-16 code unit *)
Definition char : Type := N.
Bind Scope cu_scope with char.

Inductive string : Type :=
| EmptyString
| String (c : char) (s : string).
Bind Scope js_scope with string.

Module Char.
Definition eqb (a b : char) : bool := N.eqb a b.
End Char.

Module String.

Fixpoint length (s : string) : nat :=
  match s with
  | EmptyString => 0
  | String _ s' => S (length s')
  end.

Fixpoint append (s1 s2 : string) : string :=
  match s1 with
  | EmptyString => s2
  | String c s1' => String c (append s1' s2)
  end.

(** [===] on strings *)
Fixpoint eqb (s1 s2 : string) : bool :=
  match s1, s2 with
  | EmptyString, EmptyString => true
  | String a s1', String b s2' => Char.eqb a b && eqb s1' s2'
  | _, _ => false
  end.

End String.

Infix "++" := String.append (right associativity, at level 60) : js_scope.
Infix "=?" := String.eqb (at level 70) : js_scope.

(** String literals are written in UTF-8 and read as UTF-16: a code point
    above U+FFFF becomes its surrogate pair. *)
Definition byteValue (b : Byte.byte) : N := Byte.to_N b.

Fixpoint decode_utf8 (l : list Byte.byte) : string :=
  match l with
  | [] => EmptyString
  | b0 :: l1 =>
      let n0 := byteValue b0 in
      if (n0 <? 128)%N then String n0 (decode_utf8 l1)
      else if (n0 <? 224)%N then
        match l1 with
        | b1 :: l2 =>
            String ((n0 - 192) * 64 + (byteValue b1 - 128))%N (decode_utf8 l2)
        | [] => String n0 EmptyString
        end
      else if (n0 <? 240)%N then
        match l1 with
        | b1 :: b2 :: l3 =>
            String ((n0 - 224) * 4096 + (byteValue b1 - 128) * 64
                    + (byteValue b2 - 128))%N
              (decode_utf8 l3)
        | _ => String n0 EmptyString
        end
      else
        match l1 with
        | b1 :: b2 :: b3 :: l4 =>
            let v := ((n0 - 240) * 262144 + (byteValue b1 - 128) * 4096
                      + (byteValue b2 - 128) * 64 + (byteValue b3 - 128)
                      - 65536)%N in
            String (55296 + v / 1024)%N
              (String (56320 + v mod 1024)%N (decode_utf8 l4))
        | _ => String n0 EmptyString
        end
  end.

Definition byteOf (n : N) : Byte.byte :=
  match Byte.of_N n with
  | Some b => b
  | None => Byte.x00
  end.

Fixpoint encode_utf8 (s : string) : option (list Byte.byte) :=
  match s with
  | EmptyString => Some []
  | String c s' =>
      if (c <? 128)%N then option_map (cons (byteOf c)) (encode_utf8 s')
      else if (c <? 2048)%N then
        option_map
          (fun l => byteOf (192 + c / 64)%N :: byteOf (128 + c mod 64)%N :: l)
          (encode_utf8 s')
      else if ((55296 <=? c) && (c <? 56320))%N then
        match s' with
        | String d s'' =>
            if ((56320 <=? d) && (d <? 57344))%N then
              let cp := (65536 + (c - 55296) * 1024 + (d - 56320))%N in
              option_map
                (fun l => byteOf (240 + cp / 262144)%N
                          :: byteOf (128 + (cp / 4096) mod 64)%N
                          :: byteOf (128 + (cp / 64) mod 64)%N
                          :: byteOf (128 + cp mod 64)%N :: l)
                (encode_utf8 s'')
            else None
        | EmptyString => None
        end
      else if ((56320 <=? c) && (c <? 57344))%N then None
      else if (c <? 65536)%N then
        option_map
          (fun l => byteOf (224 + c / 4096)%N
                    :: byteOf (128 + (c / 64) mod 64)%N
                    :: byteOf (128 + c mod 64)%N :: l)
          (encode_utf8 s')
      else None
  end.

String Notation string decode_utf8 encode_utf8 : js_scope.

Definition unit_of_bytes (l : list Byte.byte) : option N :=
  match decode_utf8 l with
  | String c EmptyString => Some c
  | _ => None
  end.

(** code units are printed as numbers *)
Definition bytes_of_unit (c : N) : option (list Byte.byte) := None.

String Notation N unit_of_bytes bytes_of_unit : cu_scope.

Local Open Scope js_scope.

(** ** Characters *)

Definition in_range (lo hi : N) (c : char) : bool :=
  N.leb lo c && N.leb c hi.

(** [\s], and the code units that [trim] removes: the WhiteSpace and
    LineTerminator code points of ECMAScript (TAB, LF, VT, FF, CR, space,
    U+00A0, U+1680, U+2000 to U+200A, U+2028, U+2029, U+202F, U+205F,
    U+3000, U+FEFF) *)
Definition is_space (c : char) : bool :=
  in_range 9 13 c || N.eqb c 32 || N.eqb c 160 || N.eqb c 5760
  || in_range 8192 8202 c || N.eqb c 8232 || N.eqb c 8233 || N.eqb c 8239
  || N.eqb c 8287 || N.eqb c 12288 || N.eqb c 65279.

(** [\w] *)
Definition is_word (c : char) : bool :=
  in_range 65 90 c || in_range 97 122 c || in_range 48 57 c || N.eqb c 95.

(** [.] (no [s] flag): anything but a line terminator (LF, CR, U+2028,
    U+2029) *)
Definition is_dot (c : char) : bool :=
  negb (N.eqb c 10 || N.eqb c 13 || N.eqb c 8232 || N.eqb c 8233).

(** [[^;]] *)
Definition not_semicolon (c : char) : bool := negb (Char.eqb c ";").

(** ** Upper case *)

(** The uppercase mappings of the Unicode Character Database 14.0.
    [simpleUppercase] lists the code points whose mapping is one code
    point, as runs [(first, last, step, image of first)]: the code point
    [first + k * step] of a run maps to [image + k * step].
    [specialUppercase] lists the code points whose mapping is several
    code points (SpecialCasing.txt, the unconditional mappings).  Both
    are in increasing order; a code point in neither maps to itself. *)
Local Open Scope N_scope.

Definition simpleUppercase : list (N * N * N * N) :=
  [(97, 122, 1, 65); (181, 181, 1, 924); (224, 246, 1, 192);
   (248, 254, 1, 216); (255, 255, 1, 376); (257, 303, 2, 256);
   (305, 305, 1, 73); (307, 311, 2, 306); (314, 328, 2, 313);
   (331, 375, 2, 330); (378, 382, 2, 377); (383, 383, 1, 83);
   (384, 384, 1, 579); (387, 389, 2, 386); (392, 392, 1, 391);
   (396, 396, 1, 395); (402, 402, 1, 401); (405, 405, 1, 502);
   (409, 409, 1, 408); (410, 410, 1, 573); (414, 414, 1, 544);
   (417, 421, 2, 416); (424, 424, 1, 423); (429, 429, 1, 428);
   (432, 432, 1, 431); (436, 438, 2, 435); (441, 441, 1, 440);
   (445, 445, 1, 444); (447, 447, 1, 503); (453, 453, 1, 452);
   (454, 454, 1, 452); (456, 456, 1, 455); (457, 457, 1, 455);
   (459, 459, 1, 458); (460, 460, 1, 458); (462, 476, 2, 461);
   (477, 477, 1, 398); (479, 495, 2, 478); (498, 498, 1, 497);
   (499, 499, 1, 497); (501, 501, 1, 500); (505, 543, 2, 504);
   (547, 563, 2, 546); (572, 572, 1, 571); (575, 576, 1, 11390);
   (578, 578, 1, 577); (583, 591, 2, 582); (592, 592, 1, 11375);
   (593, 593, 1, 11373); (594, 594, 1, 11376); (595, 595, 1, 385);
   (596, 596, 1, 390); (598, 599, 1, 393); (601, 601, 1, 399);
   (603, 603, 1, 400); (604, 604, 1, 42923); (608, 608, 1, 403);
   (609, 609, 1, 42924); (611, 611, 1, 404); (613, 613, 1, 42893);
   (614, 614, 1, 42922); (616, 616, 1, 407); (617, 617, 1, 406);
   (618, 618, 1, 42926); (619, 619, 1, 11362); (620, 620, 1, 42925);
   (623, 623, 1, 412); (625, 625, 1, 11374); (626, 626, 1, 413);
   (629, 629, 1, 415); (637, 637, 1, 11364); (640, 640, 1, 422);
   (642, 642, 1, 42949); (643, 643, 1, 425); (647, 647, 1, 42929);
   (648, 648, 1, 430); (649, 649, 1, 580); (650, 651, 1, 433);
   (652, 652, 1, 581); (658, 658, 1, 439); (669, 669, 1, 42930);
   (670, 670, 1, 42928); (837, 837, 1, 921); (881, 883, 2, 880);
   (887, 887, 1, 886); (891, 893, 1, 1021); (940, 940, 1, 902);
   (941, 943, 1, 904); (945, 961, 1, 913); (962, 962, 1, 931);
   (963, 971, 1, 931); (972, 972, 1, 908); (973, 974, 1, 910);
   (976, 976, 1, 914); (977, 977, 1, 920); (981, 981, 1, 934);
   (982, 982, 1, 928); (983, 983, 1, 975); (985, 1007, 2, 984);
   (1008, 1008, 1, 922); (1009, 1009, 1, 929); (1010, 1010, 1, 1017);
   (1011, 1011, 1, 895); (1013, 1013, 1, 917); (1016, 1016, 1, 1015);
   (1019, 1019, 1, 1018); (1072, 1103, 1, 1040); (1104, 1119, 1, 1024);
   (1121, 1153, 2, 1120); (1163, 1215, 2, 1162); (1218, 1230, 2, 1217);
   (1231, 1231, 1, 1216); (1233, 1327, 2, 1232); (1377, 1414, 1, 1329);
   (4304, 4346, 1, 7312); (4349, 4351, 1, 7357); (5112, 5117, 1, 5104);
   (7296, 7296, 1, 1042); (7297, 7297, 1, 1044); (7298, 7298, 1, 1054);
   (7299, 7300, 1, 1057); (7301, 7301, 1, 1058); (7302, 7302, 1, 1066);
   (7303, 7303, 1, 1122); (7304, 7304, 1, 42570); (7545, 7545, 1, 42877);
   (7549, 7549, 1, 11363); (7566, 7566, 1, 42950); (7681, 7829, 2, 7680);
   (7835, 7835, 1, 7776); (7841, 7935, 2, 7840); (7936, 7943, 1, 7944);
   (7952, 7957, 1, 7960); (7968, 7975, 1, 7976); (7984, 7991, 1, 7992);
   (8000, 8005, 1, 8008); (8017, 8023, 2, 8025); (8032, 8039, 1, 8040);
   (8048, 8049, 1, 8122); (8050, 8053, 1, 8136); (8054, 8055, 1, 8154);
   (8056, 8057, 1, 8184); (8058, 8059, 1, 8170); (8060, 8061, 1, 8186);
   (8112, 8113, 1, 8120); (8126, 8126, 1, 921); (8144, 8145, 1, 8152);
   (8160, 8161, 1, 8168); (8165, 8165, 1, 8172); (8526, 8526, 1, 8498);
   (8560, 8575, 1, 8544); (8580, 8580, 1, 8579); (9424, 9449, 1, 9398);
   (11312, 11359, 1, 11264); (11361, 11361, 1, 11360);
   (11365, 11365, 1, 570); (11366, 11366, 1, 574); (11368, 11372, 2, 11367);
   (11379, 11379, 1, 11378); (11382, 11382, 1, 11381);
   (11393, 11491, 2, 11392); (11500, 11502, 2, 11499);
   (11507, 11507, 1, 11506); (11520, 11557, 1, 4256);
   (11559, 11559, 1, 4295); (11565, 11565, 1, 4301);
   (42561, 42605, 2, 42560); (42625, 42651, 2, 42624);
   (42787, 42799, 2, 42786); (42803, 42863, 2, 42802);
   (42874, 42876, 2, 42873); (42879, 42887, 2, 42878);
   (42892, 42892, 1, 42891); (42897, 42899, 2, 42896);
   (42900, 42900, 1, 42948); (42903, 42921, 2, 42902);
   (42933, 42947, 2, 42932); (42952, 42954, 2, 42951);
   (42961, 42961, 1, 42960); (42967, 42969, 2, 42966);
   (42998, 42998, 1, 42997); (43859, 43859, 1, 42931);
   (43888, 43967, 1, 5024); (65345, 65370, 1, 65313);
   (66600, 66639, 1, 66560); (66776, 66811, 1, 66736);
   (66967, 67003, 2, 66928); (66968, 66977, 1, 66929);
   (66979, 66993, 1, 66940); (66995, 67001, 1, 66956);
   (67003, 67004, 1, 66964); (68800, 68850, 1, 68736);
   (71872, 71903, 1, 71840); (93792, 93823, 1, 93760);
   (125218, 125251, 1, 125184)].

Definition specialUppercase : list (N * list N) :=
  [(223, [83; 83]); (329, [700; 78]); (496, [74; 780]);
   (912, [921; 776; 769]); (944, [933; 776; 769]); (1415, [1333; 1362]);
   (7830, [72; 817]); (7831, [84; 776]); (7832, [87; 778]);
   (7833, [89; 778]); (7834, [65; 702]); (8016, [933; 787]);
   (8018, [933; 787; 768]); (8020, [933; 787; 769]); (8022, [933; 787; 834]);
   (8064, [7944; 921]); (8065, [7945; 921]); (8066, [7946; 921]);
   (8067, [7947; 921]); (8068, [7948; 921]); (8069, [7949; 921]);
   (8070, [7950; 921]); (8071, [7951; 921]); (8072, [7944; 921]);
   (8073, [7945; 921]); (8074, [7946; 921]); (8075, [7947; 921]);
   (8076, [7948; 921]); (8077, [7949; 921]); (8078, [7950; 921]);
   (8079, [7951; 921]); (8080, [7976; 921]); (8081, [7977; 921]);
   (8082, [7978; 921]); (8083, [7979; 921]); (8084, [7980; 921]);
   (8085, [7981; 921]); (8086, [7982; 921]); (8087, [7983; 921]);
   (8088, [7976; 921]); (8089, [7977; 921]); (8090, [7978; 921]);
   (8091, [7979; 921]); (8092, [7980; 921]); (8093, [7981; 921]);
   (8094, [7982; 921]); (8095, [7983; 921]); (8096, [8040; 921]);
   (8097, [8041; 921]); (8098, [8042; 921]); (8099, [8043; 921]);
   (8100, [8044; 921]); (8101, [8045; 921]); (8102, [8046; 921]);
   (8103, [8047; 921]); (8104, [8040; 921]); (8105, [8041; 921]);
   (8106, [8042; 921]); (8107, [8043; 921]); (8108, [8044; 921]);
   (8109, [8045; 921]); (8110, [8046; 921]); (8111, [8047; 921]);
   (8114, [8122; 921]); (8115, [913; 921]); (8116, [902; 921]);
   (8118, [913; 834]); (8119, [913; 834; 921]); (8124, [913; 921]);
   (8130, [8138; 921]); (8131, [919; 921]); (8132, [905; 921]);
   (8134, [919; 834]); (8135, [919; 834; 921]); (8140, [919; 921]);
   (8146, [921; 776; 768]); (8147, [921; 776; 769]); (8150, [921; 834]);
   (8151, [921; 776; 834]); (8162, [933; 776; 768]); (8163, [933; 776; 769]);
   (8164, [929; 787]); (8166, [933; 834]); (8167, [933; 776; 834]);
   (8178, [8186; 921]); (8179, [937; 921]); (8180, [911; 921]);
   (8182, [937; 834]); (8183, [937; 834; 921]); (8188, [937; 921]);
   (64256, [70; 70]); (64257, [70; 73]); (64258, [70; 76]);
   (64259, [70; 70; 73]); (64260, [70; 70; 76]); (64261, [83; 84]);
   (64262, [83; 84]); (64275, [1348; 1350]); (64276, [1348; 1333]);
   (64277, [1348; 1339]); (64278, [1358; 1350]); (64279, [1348; 1341])].

Fixpoint findSimple (l : list (N * N * N * N)) (cp : N) : option N :=
  match l with
  | [] => None
  | (first, last, step, image) :: l' =>
      if cp <? first then None
      else if (cp <=? last) && ((cp - first) mod step =? 0)
      then Some (image + (cp - first))
      else findSimple l' cp
  end.

Fixpoint findSpecial (l : list (N * list N)) (cp : N) : option (list N) :=
  match l with
  | [] => None
  | (c, image) :: l' =>
      if cp <? c then None
      else if cp =? c then Some image
      else findSpecial l' cp
  end.

(** the uppercase mapping of a code point, as code points *)
Definition uppercaseMapping (cp : N) : list N :=
  match findSpecial specialUppercase cp with
  | Some image => image
  | None =>
      match findSimple simpleUppercase cp with
      | Some u => [u]
      | None => [cp]
      end
  end.

Definition is_high (c : char) : bool := (55296 <=? c) && (c <=? 56319).
Definition is_low (c : char) : bool := (56320 <=? c) && (c <=? 57343).

(** the code point of a surrogate pair *)
Definition pair_point (h l : char) : N := 65536 + (h - 55296) * 1024 + (l - 56320).

Local Close Scope N_scope.

(** the code units of a code point *)
Definition units (cp : N) : string :=
  if (cp <? 65536)%N then String cp ""
  else String (55296 + (cp - 65536) / 1024)%N
         (String (56320 + (cp - 65536) mod 1024)%N "").

Fixpoint unitsOf (l : list N) : string :=
  match l with
  | [] => ""
  | cp :: l' => units cp ++ unitsOf l'
  end.

(** the uppercase mapping of a code point, as code units *)
Definition upcase (cp : N) : string := unitsOf (uppercaseMapping cp).

(** ** Strings *)

(** [toUpperCase] reads the string as code points, a high surrogate
    followed by a low one making one code point and any other code unit
    being a code point of its own, and maps each; [pending] is a high
    surrogate read and not yet mapped *)
Fixpoint upperFrom (pending : option char) (s : string) : string :=
  match s with
  | "" =>
      match pending with
      | Some h => upcase h
      | None => ""
      end
  | String c s' =>
      match pending with
      | Some h =>
          if is_low c then upcase (pair_point h c) ++ upperFrom None s'
          else if is_high c then upcase h ++ upperFrom (Some c) s'
          else upcase h ++ upcase c ++ upperFrom None s'
      | None =>
          if is_high c then upperFrom (Some c) s'
          else upcase c ++ upperFrom None s'
      end
  end.

Definition toUpperCase (s : string) : string := upperFrom None s.

(** [Canonicalize] of a code unit for a pattern with the [i] flag and
    without the [u] flag: its upper case when that is one code unit,
    except that a code unit outside ASCII is never taken into ASCII *)
Definition canonicalize (ch : char) : char :=
  match toUpperCase (String ch "") with
  | String cu "" =>
      if N.leb 128 ch && N.ltb cu 128 then ch else cu
  | _ => ch
  end.

Fixpoint startsWith (s p : string) {struct p} : bool :=
  match p, s with
  | "", _ => true
  | String a p', String b s' => Char.eqb a b && startsWith s' p'
  | String _ _, "" => false
  end.

Fixpoint trimStart (s : string) : string :=
  match s with
  | "" => ""
  | String c s' => if is_space c then trimStart s' else s
  end.

Fixpoint trimEnd (s : string) : string :=
  match s with
  | "" => ""
  | String c s' =>
      let r := trimEnd s' in
      if is_space c && (r =? "") then "" else String c r
  end.

Definition trim (s : string) : string := trimEnd (trimStart s).

Fixpoint take (n : nat) (s : string) : string :=
  match n, s with
  | S n', String c s' => String c (take n' s')
  | _, _ => ""
  end.

(** the text between position [s] and the later position [s'] of one string *)
Definition consumed (s s' : string) : string :=
  take (String.length s - String.length s') s.

(** [Array.prototype.join] *)
Fixpoint join (sep : string) (l : list string) : string :=
  match l with
  | [] => ""
  | [x] => x
  | x :: l' => x ++ sep ++ join sep l'
  end.

(** [Array.prototype.includes] *)
Definition includes (l : list string) (x : string) : bool :=
  existsb (String.eqb x) l.

(** [s.split(d)] for a one-character separator: never empty, [""] gives [[""]] *)
Fixpoint split_on (d : char) (s : string) : list string :=
  match s with
  | "" => [""]
  | String c s' =>
      if Char.eqb c d then "" :: split_on d s'
      else match split_on d s' with
           | f :: fs => String c f :: fs
           | [] => [String c ""]
           end
  end.

(** [s.split(/\s+/)]: the fields between maximal runs of whitespace; the
    flag says that the previous character belonged to a separator *)
Fixpoint split_ws_from (in_sep : bool) (s : string) : list string :=
  match s with
  | "" => [""]
  | String c s' =>
      if is_space c then
        if in_sep then split_ws_from true s' else "" :: split_ws_from true s'
      else match split_ws_from false s' with
           | f :: fs => String c f :: fs
           | [] => [String c ""]
           end
  end.

Definition split_ws (s : string) : list string := split_ws_from false s.

(** [s.replace(/\s+/g, " ")] *)
Fixpoint collapse_ws_from (in_run : bool) (s : string) : string :=
  match s with
  | "" => ""
  | String c s' =>
      if is_space c then
        if in_run then collapse_ws_from true s'
        else String " " (collapse_ws_from true s')
      else String c (collapse_ws_from false s')
  end.

Definition collapse_ws (s : string) : string := collapse_ws_from false s.

(** [s.replace(/=/g, "=")] *)
Fixpoint replace_eq (s : string) : string :=
  match s with
  | "" => ""
  | String c s' =>
      if Char.eqb c "=" then "=" ++ replace_eq s' else String c (replace_eq s')
  end.

(** ** Regular expressions *)

Inductive re : Type :=
| Chr (p : char -> bool)              (* one code unit of a class *)
| Lit (w : string)                     (* a word, compared through Canonicalize (flag i) *)
| Cat (r1 r2 : re)
| Alt (r1 r2 : re)
| Rep (greedy : bool) (p : char -> bool)   (* p* when greedy, p*? otherwise *)
| Opt (r : re)                         (* (?:r)? *)
| Grp (n : nat) (r : re)               (* capture group number n *)
| Ahead (r : re)                       (* (?=r) *)
| Eos.                                 (* $ *)

Declare Scope re_scope.
Delimit Scope re_scope with re.
Bind Scope re_scope with re.
Infix ";;" := Cat (at level 61, right associativity) : re_scope.
Infix "<|>" := Alt (at level 62, right associativity) : re_scope.

(** p+ and p+? *)
Definition Plus (greedy : bool) (p : char -> bool) : re :=
  Cat (Chr p) (Rep greedy p).

Definition captures := list (nat * string).

Fixpoint capture (n : nat) (c : captures) : option string :=
  match c with
  | [] => None
  | (m, v) :: c' => if Nat.eqb m n then Some v else capture n c'
  end.

Definition state : Type := string * captures.
Definition cont : Type := string -> captures -> option state.

Fixpoint lit_match (w s : string) : option string :=
  match w, s with
  | "", _ => Some s
  | String a w', String b s' =>
      if Char.eqb (canonicalize a) (canonicalize b) then lit_match w' s' else None
  | String _ _, "" => None
  end.

Fixpoint rep_loop (greedy : bool) (p : char -> bool)
    (k : string -> option state) (s : string) : option state :=
  if greedy then
    match s with
    | String c s' =>
        if p c then
          match rep_loop greedy p k s' with
          | Some x => Some x
          | None => k s
          end
        else k s
    | "" => k s
    end
  else
    match k s with
    | Some x => Some x
    | None =>
        match s with
        | String c s' => if p c then rep_loop greedy p k s' else None
        | "" => None
        end
    end.

Fixpoint run (r : re) (s : string) (c : captures) (k : cont) : option state :=
  match r with
  | Chr p =>
      match s with
      | String a s' => if p a then k s' c else None
      | "" => None
      end
  | Lit w =>
      match lit_match w s with
      | Some s' => k s' c
      | None => None
      end
  | Cat r1 r2 => run r1 s c (fun s1 c1 => run r2 s1 c1 k)
  | Alt r1 r2 =>
      match run r1 s c k with
      | Some x => Some x
      | None => run r2 s c k
      end
  | Rep greedy p => rep_loop greedy p (fun s' => k s' c) s
  | Opt r1 =>
      match run r1 s c (fun s1 c1 =>
                          if Nat.eqb (String.length s1) (String.length s) then None else k s1 c1) with
      | Some x => Some x
      | None => k s c
      end
  | Grp n r1 => run r1 s c (fun s1 c1 => k s1 ((n, consumed s s1) :: c1))
  | Ahead r1 =>
      match run r1 s c (fun s1 c1 => Some (s1, c1)) with
      | Some (_, c1) => k s c1
      | None => None
      end
  | Eos =>
      match s with
      | "" => k s c
      | String _ _ => None
      end
  end.

(** one attempt at the current position *)
Definition exec_here (r : re) (s : string) : option state :=
  run r s [] (fun s' c' => Some (s', c')).

(** The result of a successful match: its position, the matched text and
    the captures. *)
Record MatchResult : Type := mkMatch {
  index : nat;
  whole : string;
  groups : captures;
}.

(** [m[n]] *)
Definition group (m : MatchResult) (n : nat) : option string :=
  capture n (groups m).

(** [s.match(r)] without the [g] flag: the leftmost match *)
Fixpoint search_from (r : re) (i : nat) (s : string) : option MatchResult :=
  match exec_here r s with
  | Some (s', c) => Some (mkMatch i (consumed s s') c)
  | None =>
      match s with
      | "" => None
      | String _ s' => search_from r (S i) s'
      end
  end.

Definition search (r : re) (s : string) : option MatchResult :=
  search_from r 0 s.

(** [s.match(r)] with the [g] flag: the texts of all matches, left to
    right; after a match the search resumes at its end ([skip] counts the
    positions inside the last match), after an empty one a position later.
    [None] is JavaScript's [null], returned when there is no match. *)
Fixpoint match_all_from (r : re) (skip : nat) (s : string) : list string :=
  match skip with
  | S n =>
      match s with
      | "" => []
      | String _ s' => match_all_from r n s'
      end
  | O =>
      match exec_here r s with
      | Some (s', _) =>
          let w := consumed s s' in
          match s with
          | "" => [w]
          | String _ t => w :: match_all_from r (String.length w - 1) t
          end
      | None =>
          match s with
          | "" => []
          | String _ t => match_all_from r 0 t
          end
      end
  end.

Definition match_all (r : re) (s : string) : option (list string) :=
  match match_all_from r 0 s with
  | [] => None
  | l => Some l
  end.

(** [s.replace(/^r/, "")]: the pattern is tried at the start only *)
Definition remove_prefix (r : re) (s : string) : string :=
  match exec_here r s with
  | Some (s', _) => s'
  | None => s
  end.

(** ** The patterns of [parseSQL] *)

Local Open Scope re_scope.

(** [\s+] *)
Definition ws : re := Plus true is_space.

(** [INNER\s+JOIN|LEFT\s+OUTER\s+JOIN|RIGHT\s+OUTER\s+JOIN|FULL\s+OUTER\s+JOIN|LEFT\s+JOIN|RIGHT\s+JOIN|FULL\s+JOIN|JOIN] *)
Definition joinKeyword : re :=
  (Lit "INNER" ;; ws ;; Lit "JOIN")
  <|> (Lit "LEFT" ;; ws ;; Lit "OUTER" ;; ws ;; Lit "JOIN")
  <|> (Lit "RIGHT" ;; ws ;; Lit "OUTER" ;; ws ;; Lit "JOIN")
  <|> (Lit "FULL" ;; ws ;; Lit "OUTER" ;; ws ;; Lit "JOIN")
  <|> (Lit "LEFT" ;; ws ;; Lit "JOIN")
  <|> (Lit "RIGHT" ;; ws ;; Lit "JOIN")
  <|> (Lit "FULL" ;; ws ;; Lit "JOIN")
  <|> Lit "JOIN".

(** [/SELECT\s+(?:DISTINCT\s+)?(.+?)\s+FROM/i] *)
Definition selectRe : re :=
  Lit "SELECT" ;; ws ;; Opt (Lit "DISTINCT" ;; ws) ;;
  Grp 1 (Plus false is_dot) ;; ws ;; Lit "FROM".

(** [/FROM\s+(.+?)(?:\s+WHERE|\s+JOIN|\s+GROUP\s+BY|\s+ORDER\s+BY|\s+HAVING|$)/i] *)
Definition fromRe : re :=
  Lit "FROM" ;; ws ;; Grp 1 (Plus false is_dot) ;;
  ((ws ;; Lit "WHERE")
   <|> (ws ;; Lit "JOIN")
   <|> (ws ;; Lit "GROUP" ;; ws ;; Lit "BY")
   <|> (ws ;; Lit "ORDER" ;; ws ;; Lit "BY")
   <|> (ws ;; Lit "HAVING")
   <|> Eos).

(** [/WHERE\s+(.+?)(?:\s+GROUP\s+BY|\s+ORDER\s+BY|\s+HAVING|$)/i] *)
Definition whereRe : re :=
  Lit "WHERE" ;; ws ;; Grp 1 (Plus false is_dot) ;;
  ((ws ;; Lit "GROUP" ;; ws ;; Lit "BY")
   <|> (ws ;; Lit "ORDER" ;; ws ;; Lit "BY")
   <|> (ws ;; Lit "HAVING")
   <|> Eos).

(** [joinRegex], flags [gi]: the keyword, [\s+(\w+)(?:\s+\w+)?\s+ON\s+([^;]+?)]
    and the lookahead
    [(?=\s+(?:INNER\s+JOIN|...|JOIN|WHERE|GROUP\s+BY|ORDER\s+BY|HAVING|$))] *)
Definition joinRegex : re :=
  joinKeyword ;; ws ;; Grp 1 (Plus true is_word) ;;
  Opt (ws ;; Plus true is_word) ;; ws ;; Lit "ON" ;; ws ;;
  Grp 2 (Plus false not_semicolon) ;;
  Ahead (ws ;;
         (joinKeyword
          <|> Lit "WHERE"
          <|> (Lit "GROUP" ;; ws ;; Lit "BY")
          <|> (Lit "ORDER" ;; ws ;; Lit "BY")
          <|> Lit "HAVING"
          <|> Eos)).

(** the pattern applied to each text matched by [joinRegex]:
    the keyword, then [\s+(\w+)(?:\s+\w+)?\s+ON\s+(.+)], flag [i] *)
Definition partsRe : re :=
  joinKeyword ;; ws ;; Grp 1 (Plus true is_word) ;;
  Opt (ws ;; Plus true is_word) ;; ws ;; Lit "ON" ;; ws ;;
  Grp 2 (Plus true is_dot).

(** [/(INNER\s+JOIN|...|JOIN)/i] *)
Definition typeRe : re := Grp 1 joinKeyword.

(** [/GROUP\s+BY\s+(.+?)(?:\s+HAVING|\s+ORDER\s+BY|$)/i] *)
Definition groupByRe : re :=
  Lit "GROUP" ;; ws ;; Lit "BY" ;; ws ;; Grp 1 (Plus false is_dot) ;;
  ((ws ;; Lit "HAVING")
   <|> (ws ;; Lit "ORDER" ;; ws ;; Lit "BY")
   <|> Eos).

(** [/ORDER\s+BY\s+(.+?)(?:;|$)/i] *)
Definition orderByRe : re :=
  Lit "ORDER" ;; ws ;; Lit "BY" ;; ws ;; Grp 1 (Plus false is_dot) ;;
  (Lit ";" <|> Eos).

(** [/HAVING\s+(.+?)(?:\s+ORDER\s+BY|$)/i] *)
Definition havingRe : re :=
  Lit "HAVING" ;; ws ;; Grp 1 (Plus false is_dot) ;;
  ((ws ;; Lit "ORDER" ;; ws ;; Lit "BY") <|> Eos).

(** [/^.*\./]; the pattern has no [i] flag, and the dot is the only code
    unit with the [Canonicalize] of a dot *)
Definition tablePrefixRe : re := Rep true is_dot ;; Lit ".".

Local Close Scope re_scope.

(** ** The data model *)

Record Join : Type := mkJoin {
  type : string;
  table : string;
  condition : string;
}.

Record OrderItem : Type := mkOrderItem {
  column : string;
  direction : string;
}.

Record ParsedQuery : Type := mkParsedQuery {
  operation : string;
  tables : list string;
  columns : list string;
  conditions : list string;
  joins : list Join;
  groupBy : list string;
  orderBy : list OrderItem;
  having : list string;
}.

(** ** parseSQL *)

(** The body of the [try] block either completes or reads a capture that
    is [undefined]; JavaScript raises a [TypeError] at the method call on
    such a value, and the [catch] turns it into [null]. *)
Inductive completion (A : Type) : Type :=
| Normal (a : A)
| Throw.
Arguments Normal {A} a.
Arguments Throw {A}.

Definition bind {A B : Type} (m : completion A) (f : A -> completion B) : completion B :=
  match m with
  | Normal a => f a
  | Throw => Throw
  end.

Notation "x <- m ;; f" := (bind m (fun x => f))
  (at level 61, m at next level, right associativity).

(** a capture that the code uses as a string *)
Definition defined (o : option string) : completion string :=
  match o with
  | Some v => Normal v
  | None => Throw
  end.

Fixpoint mapM {A B : Type} (f : A -> completion B) (l : list A) : completion (list B) :=
  match l with
  | [] => Normal []
  | x :: l' => y <- f x ;; ys <- mapM f l' ;; Normal (y :: ys)
  end.

(** the callback of [columnsStr.split(",").map(...)]; [split] never
    returns an empty array, so element 0 exists and the default of [hd]
    is never used *)
Definition parseColumn (col : string) : string :=
  let trimmed := trim col in
  hd "" (split_ws (remove_prefix tablePrefixRe trimmed)).

Definition parseColumns (columnsStr : string) : list string :=
  if columnsStr =? "*" then ["*"]
  else map parseColumn (split_on "," columnsStr).

(** the callback of [tablesStr.split(",").map(...)] *)
Definition parseTable (table : string) : string :=
  let trimmed := trim table in
  hd "" (split_ws trimmed).

(** the callback of [joinMatches.map(...)]; [None] is the [null] that
    [filter(Boolean)] removes *)
Definition parseJoin (m : string) : completion (option Join) :=
  match search partsRe m with
  | Some parts =>
      let found :=
        match search typeRe m with
        | Some t => group t 1
        | None => None
        end in
      let type :=
        match found with
        | Some v => if v =? "" then "JOIN" else v
        | None => "JOIN"
        end in
      table <- defined (group parts 1) ;;
      cond <- defined (group parts 2) ;;
      Normal (Some (mkJoin (toUpperCase type) table (trim cond)))
  | None => Normal None
  end.

Fixpoint filterBoolean {A : Type} (l : list (option A)) : list A :=
  match l with
  | [] => []
  | Some x :: l' => x :: filterBoolean l'
  | None :: l' => filterBoolean l'
  end.

(** the callback of [orderByMatch[1].split(",").map(...)] *)
Definition parseOrderItem (col : string) : OrderItem :=
  let trimmed := trim col in
  let parts := split_ws trimmed in
  let column := hd "" parts in
  let direction :=
    match nth_error parts 1 with
    | Some d => if toUpperCase d =? "DESC" then "DESC" else "ASC"
    | None => "ASC"
    end in
  mkOrderItem column direction.

(** an optional clause: [m ? f(m[1]) : []] *)
Definition clause {A : Type} (m : option MatchResult) (f : string -> list A)
  : completion (list A) :=
  match m with
  | Some r => v <- defined (group r 1) ;; Normal (f v)
  | None => Normal []
  end.

(** [joinMatches ? joinMatches.map(...).filter(Boolean) : []] *)
Definition parseJoins (trimmedQuery : string) : completion (list Join) :=
  match match_all joinRegex trimmedQuery with
  | Some joinMatches =>
      js <- mapM parseJoin joinMatches ;; Normal (filterBoolean js)
  | None => Normal []
  end.

(** the [try] block *)
Definition parseSQL_try (trimmedQuery : string) : completion (option ParsedQuery) :=
  match search selectRe trimmedQuery with
  | None => Normal None
  | Some selectMatch =>
      columnsStr <- defined (group selectMatch 1) ;;
      let columns := parseColumns columnsStr in
      match search fromRe trimmedQuery with
      | None => Normal None
      | Some fromMatch =>
          tablesStr <- defined (group fromMatch 1) ;;
          let tables := map parseTable (split_on "," tablesStr) in
          conditions <- clause (search whereRe trimmedQuery) (fun v => [trim v]) ;;
          joins <- parseJoins trimmedQuery ;;
          groupBy <- clause (search groupByRe trimmedQuery)
                       (fun v => map trim (split_on "," v)) ;;
          orderBy <- clause (search orderByRe trimmedQuery)
                       (fun v => map parseOrderItem (split_on "," v)) ;;
          having <- clause (search havingRe trimmedQuery) (fun v => [trim v]) ;;
          Normal (Some (mkParsedQuery "SELECT" tables columns conditions
                          joins groupBy orderBy having))
      end
  end.

Definition parseSQL (query : string) : option ParsedQuery :=
  let trimmedQuery := trim query in
  let upperQuery := toUpperCase trimmedQuery in
  if negb (startsWith upperQuery "SELECT") then None
  else
    match parseSQL_try trimmedQuery with
    | Normal r => r
    | Throw => None
    end.

(** ** convertToRelationalAlgebra *)

Definition baseRelation (parsed : ParsedQuery) : string :=
  if Nat.eqb (List.length (tables parsed)) 1 then hd "" (tables parsed)
  else "(" ++ join " × " (tables parsed) ++ ")".

Definition joinSymbol (j : Join) : string :=
  if (type j =? "LEFT JOIN") || (type j =? "LEFT OUTER JOIN") then "⟕"
  else if (type j =? "RIGHT JOIN") || (type j =? "RIGHT OUTER JOIN") then "⟖"
  else if (type j =? "FULL JOIN") || (type j =? "FULL OUTER JOIN") then "⟗"
  else "⋈".

Definition applyJoin (result : string) (j : Join) : string :=
  let joinCondition := collapse_ws (replace_eq (condition j)) in
  "(" ++ result ++ " " ++ joinSymbol j ++ "[" ++ joinCondition ++ "] " ++ table j ++ ")".

Definition applySelection (parsed : ParsedQuery) (result : string) : string :=
  if Nat.ltb 0 (List.length (conditions parsed))
  then "σ[" ++ join " ∧ " (conditions parsed) ++ "](" ++ result ++ ")"
  else result.

Definition applyGrouping (parsed : ParsedQuery) (result : string) : string :=
  if Nat.ltb 0 (List.length (groupBy parsed))
  then "γ[" ++ join ", " (groupBy parsed) ++ "](" ++ result ++ ")"
  else result.

Definition applyHaving (parsed : ParsedQuery) (result : string) : string :=
  if Nat.ltb 0 (List.length (having parsed))
  then "σ[" ++ join " ∧ " (having parsed) ++ "](" ++ result ++ ")"
  else result.

Definition applyProjection (parsed : ParsedQuery) (result : string) : string :=
  if Nat.ltb 0 (List.length (columns parsed)) && negb (includes (columns parsed) "*")
  then "π[" ++ join ", " (columns parsed) ++ "](" ++ result ++ ")"
  else result.

Definition applyOrdering (parsed : ParsedQuery) (result : string) : string :=
  if Nat.ltb 0 (List.length (orderBy parsed))
  then "τ[" ++ join ", " (map (fun ob => column ob ++ " " ++ direction ob)
                            (orderBy parsed)) ++ "](" ++ result ++ ")"
  else result.

Definition convertToRelationalAlgebra (parsed : ParsedQuery) : string :=
  let result := baseRelation parsed in
  let result := fold_left applyJoin (joins parsed) result in
  let result := applySelection parsed result in
  let result := applyGrouping parsed result in
  let result := applyHaving parsed result in
  let result := applyProjection parsed result in
  let result := applyOrdering parsed result in
  result.

(** the effect of the component: parse, then convert *)
Definition convert (sqlQuery : string) : option string :=
  match parseSQL sqlQuery with
  | Some parsed => Some (convertToRelationalAlgebra parsed)
  | None => None
  end.

(** ** Vocabulary of the statements *)

(** A declarative reading of the patterns: [matches r s c s' c'] says that
    [r] can match from position [s] to position [s'], turning the
    captures [c] into [c'].  It forgets priorities; [run] only returns
    matches of this relation. *)
Inductive matches : re -> string -> captures -> string -> captures -> Prop :=
| M_Chr p a s c : p a = true -> matches (Chr p) (String a s) c s c
| M_Lit w s s' c : lit_match w s = Some s' -> matches (Lit w) s c s' c
| M_Cat r1 r2 s c s1 c1 s2 c2 :
    matches r1 s c s1 c1 -> matches r2 s1 c1 s2 c2 ->
    matches (Cat r1 r2) s c s2 c2
| M_AltL r1 r2 s c s' c' : matches r1 s c s' c' -> matches (Alt r1 r2) s c s' c'
| M_AltR r1 r2 s c s' c' : matches r2 s c s' c' -> matches (Alt r1 r2) s c s' c'
| M_RepStop g p s c : matches (Rep g p) s c s c
| M_RepStep g p a s c s' :
    p a = true -> matches (Rep g p) s c s' c ->
    matches (Rep g p) (String a s) c s' c
| M_OptSome r s c s' c' : matches r s c s' c' -> matches (Opt r) s c s' c'
| M_OptNone r s c : matches (Opt r) s c s c
| M_Grp n r s c s' c' :
    matches r s c s' c' -> matches (Grp n r) s c s' ((n, consumed s s') :: c')
| M_Ahead r s c s' c' : matches r s c s' c' -> matches (Ahead r) s c s c'
| M_Eos c : matches Eos "" c "" c.

(** [binds r n]: every match of [r] sets capture [n] *)
Fixpoint binds (r : re) (n : nat) : bool :=
  match r with
  | Cat r1 r2 => binds r1 n || binds r2 n
  | Alt r1 r2 => binds r1 n && binds r2 n
  | Grp m r1 => Nat.eqb m n || binds r1 n
  | Ahead r1 => binds r1 n
  | _ => false
  end.

Fixpoint all_chars (p : char -> bool) (s : string) : bool :=
  match s with
  | "" => true
  | String c s' => p c && all_chars p s'
  end.

(** a run of whitespace *)
Definition blank (s : string) : bool := all_chars is_space s.

(** a whitespace-delimited token: not empty, no whitespace inside *)
Definition token (s : string) : bool :=
  negb (s =? "") && all_chars (fun c => negb (is_space c)) s.

(** what is left of the text after a token: nothing, or whitespace first *)
Definition after_token (s : string) : Prop :=
  s = "" \/ exists c r, s = String c r /\ is_space c = true.

Fixpoint lastChar (s : string) : option char :=
  match s with
  | "" => None
  | String c "" => Some c
  | String _ s' => lastChar s'
  end.

(** [plain r]: no capture group inside [r] *)
Fixpoint plain (r : re) : bool :=
  match r with
  | Grp _ _ => false
  | Cat r1 r2 | Alt r1 r2 => plain r1 && plain r2
  | Opt r1 | Ahead r1 => plain r1
  | _ => true
  end.

(** [closes_with_word r]: [r] ends with a keyword, so that every match of
    it ends with a letter *)
Fixpoint closes_with_word (r : re) : bool :=
  match r with
  | Lit w =>
      match lastChar w with
      | Some c => is_word c
      | None => false
      end
  | Cat _ r2 => closes_with_word r2
  | Alt r1 r2 => closes_with_word r1 && closes_with_word r2
  | _ => false
  end.

(** a clause boundary: keywords, or the end of the text *)
Fixpoint boundary (r : re) : bool :=
  match r with
  | Eos => true
  | Alt r1 r2 => boundary r1 && boundary r2
  | _ => closes_with_word r
  end.


Definition contains (s x : string) : Prop := exists pre post, s = pre ++ x ++ post.

(** the text, after its leading whitespace, begins with SELECT in any
    case: its upper case begins with SELECT *)
Definition beginsWithSelect (s : string) : Prop :=
  startsWith (toUpperCase (trimStart s)) "SELECT" = true.

(** the match runs to the end of the text [t] *)
Definition reachesEnd (m : MatchResult) (t : string) : Prop :=
  index m + String.length (whole m) = String.length t.

(** the accumulator of [convertToRelationalAlgebra] after the joins *)
Definition joined (parsed : ParsedQuery) : string :=
  fold_left applyJoin (joins parsed) (baseRelation parsed).

(** the accumulator before the projection step *)
Definition beforeProjection (parsed : ParsedQuery) : string :=
  applyHaving parsed (applyGrouping parsed (applySelection parsed (joined parsed))).

Definition orderText (parsed : ParsedQuery) : string :=
  join ", " (map (fun ob => column ob ++ " " ++ direction ob) (orderBy parsed)).

(** the projection layer is present, around the accumulator of the
    steps before it *)
Definition projected (parsed : ParsedQuery) : Prop :=
  convertToRelationalAlgebra parsed =
  applyOrdering parsed
    ("π[" ++ join ", " (columns parsed) ++ "](" ++ beforeProjection parsed ++ ")").

(** the five unconditional layers below the projection *)
Definition grouped (parsed : ParsedQuery) : string :=
  "σ[" ++ join " ∧ " (having parsed) ++ "](" ++
  "γ[" ++ join ", " (groupBy parsed) ++ "](" ++
  "σ[" ++ join " ∧ " (conditions parsed) ++ "](" ++ joined parsed ++ ")))".

(** τ(π(σ(γ(σ(joins))))) *)
Definition nestedWithProjection (parsed : ParsedQuery) : string :=
  "τ[" ++ orderText parsed ++ "](" ++
  "π[" ++ join ", " (columns parsed) ++ "](" ++ grouped parsed ++ "))".

(** τ(σ(γ(σ(joins)))) *)
Definition nestedWithoutProjection (parsed : ParsedQuery) : string :=
  "τ[" ++ orderText parsed ++ "](" ++ grouped parsed ++ ")".

(** ** The component around the converter *)

(** a JavaScript string used as a condition *)
Definition truthy (s : string) : bool := negb (s =? "").

Module Converter.

(** the state of [RelationalAlgebraConverter] *)
Record State : Type := mkState {
  relationalAlgebra : string;
  error : option string;
  copied : bool;
}.

(** The effect run when [sqlQuery] changes.  The body of its [try] only
    calls [convertToRelationalAlgebra], which has no operation that
    throws; its [catch] is not entered. *)
Definition onQueryChange (sqlQuery : string) (st : State) : State :=
  if negb (truthy (trim sqlQuery)) then mkState "" None (copied st)
  else
    match parseSQL sqlQuery with
    | None =>
        mkState ""
          (Some "Unable to parse SQL query. Please ensure it's a valid SELECT statement.")
          (copied st)
    | Some parsed => mkState (convertToRelationalAlgebra parsed) None (copied st)
    end.

(** [{error && ...}] *)
Definition showsError (st : State) : bool :=
  match error st with
  | Some e => truthy e
  | None => false
  end.

(** [{relationalAlgebra && ...}] *)
Definition showsAlgebra (st : State) : bool := truthy (relationalAlgebra st).

(** [{!relationalAlgebra && !error && sqlQuery.trim() && ...}] *)
Definition showsPlaceholder (sqlQuery : string) (st : State) : bool :=
  negb (truthy (relationalAlgebra st)) && negb (showsError st)
  && truthy (trim sqlQuery).

End Converter.

(** ** The page: executeQuery *)

(** a number in a template literal *)
Fixpoint string_of_uint (d : Decimal.uint) : string :=
  match d with
  | Decimal.Nil => ""
  | Decimal.D0 d' => String "0" (string_of_uint d')
  | Decimal.D1 d' => String "1" (string_of_uint d')
  | Decimal.D2 d' => String "2" (string_of_uint d')
  | Decimal.D3 d' => String "3" (string_of_uint d')
  | Decimal.D4 d' => String "4" (string_of_uint d')
  | Decimal.D5 d' => String "5" (string_of_uint d')
  | Decimal.D6 d' => String "6" (string_of_uint d')
  | Decimal.D7 d' => String "7" (string_of_uint d')
  | Decimal.D8 d' => String "8" (string_of_uint d')
  | Decimal.D9 d' => String "9" (string_of_uint d')
  end.

Definition decimal (n : nat) : string :=
  match Nat.to_uint n with
  | Decimal.Nil => "0"
  | d => string_of_uint d
  end.

Module Page.

Section WithValues.

(** the values held by the rows of the database *)
Variable Value : Type.

(** a row object, as the list of its properties in enumeration order *)
Definition Row : Type := list (string * Value).

(** a cell of the result table: a value of a row, or a message *)
Inductive Cell : Type :=
| FromRow (v : Value)
| Message (s : string).

Record QueryResult : Type := mkQueryResult {
  columns : list string;
  values : list (list Cell);
}.

(** what a call into the database throws: an [Error] with its message,
    or any other value *)
Inductive Thrown : Type :=
| ErrorObject (message : string)
| OtherValue.

(** The database object of sqlite-wasm, through the three methods that
    [executeQuery] calls; [DB] is the state of the object. *)
Record Database : Type := mkDatabase {
  DB : Type;
  selectObjects : DB -> string -> (Thrown + list Row) * DB;
  exec : DB -> string -> option Thrown * DB;
  changes : DB -> Thrown + nat;
}.

Variable api : Database.

Record State : Type := mkState {
  db : option (DB api);
  query : string;
  result : option QueryResult;
  error : option string;
  isLoading : bool;
  fileName : option string;
  sqliteReady : bool;
}.

(** [trimmedQuery.startsWith("SELECT") || trimmedQuery.startsWith("WITH")] *)
Definition isSelectQuery (query : string) : bool :=
  let trimmedQuery := toUpperCase (trim query) in
  startsWith trimmedQuery "SELECT" || startsWith trimmedQuery "WITH".

(** [err instanceof Error ? err.message : "Failed to execute query"] *)
Definition errorMessage (err : Thrown) : string :=
  match err with
  | ErrorObject message => message
  | OtherValue => "Failed to execute query"
  end.

(** the state after the [catch] and the [finally] *)
Definition failed (st : State) (d : DB api) (err : Thrown) : State :=
  mkState (Some d) (query st) None (Some (errorMessage err)) false
    (fileName st) (sqliteReady st).

(** the state after [setResult] and the [finally] *)
Definition succeeded (st : State) (d : DB api) (r : QueryResult) : State :=
  mkState (Some d) (query st) (Some r) None false (fileName st) (sqliteReady st).

(** [Object.keys(rows[0])] and [rows.map(row => Object.values(row))] *)
Definition tableOfRows (row0 : Row) (rows : list Row) : QueryResult :=
  mkQueryResult (map fst row0)
    (map (fun row : Row => map (fun kv => FromRow (snd kv)) row) rows).

Definition executeQuery (st : State) : State :=
  match db st with
  | None =>
      mkState None (query st) (result st) (Some "Database not loaded")
        (isLoading st) (fileName st) (sqliteReady st)
  | Some d =>
      if isSelectQuery (query st) then
        match selectObjects api d (query st) with
        | (inr rows, d') =>
            match rows with
            | row0 :: _ => succeeded st d' (tableOfRows row0 rows)
            | [] =>
                succeeded st d'
                  (mkQueryResult ["Result"] [[Message "Query returned no rows"]])
            end
        | (inl err, d') => failed st d' err
        end
      else
        match exec api d (query st) with
        | (None, d') =>
            match changes api d' with
            | inr n =>
                succeeded st d'
                  (mkQueryResult ["Result"]
                     [[Message ("Query executed successfully. "
                                ++ decimal n
                                ++ " row(s) affected.")]])
            | inl err => failed st d' err
            end
        | (Some err, d') => failed st d' err
        end
  end.

(** [{result.values.length} row(s) returned] *)
Definition rowsReturned (r : QueryResult) : nat := List.length (values r).

(** the [disabled] property of the Execute button *)
Definition executeDisabled (st : State) : bool :=
  match db st with
  | None => true
  | Some _ => isLoading st || negb (truthy (trim (query st)))
  end.

End WithValues.

Arguments FromRow {Value} v.
Arguments Message {Value} s.
Arguments mkQueryResult {Value} columns values.
Arguments columns {Value} q.
Arguments values {Value} q.
Arguments rowsReturned {Value} r.
Arguments tableOfRows {Value} row0 rows.
Arguments db {Value api} s.
Arguments query {Value api} s.
Arguments result {Value api} s.
Arguments error {Value api} s.
Arguments isLoading {Value api} s.
Arguments fileName {Value api} s.
Arguments sqliteReady {Value api} s.
Arguments executeQuery {Value api} st.
Arguments executeDisabled {Value api} st.

End Page.

(** ** More vocabulary *)

(** whitespace occurs only as single spaces, none next to another; the
    flag says that the previous character was a space *)
Fixpoint single_spaced_from (after_space : bool) (s : string) : bool :=
  match s with
  | "" => true
  | String c s' =>
      if is_space c
      then Char.eqb c " " && negb after_space && single_spaced_from true s'
      else single_spaced_from false s'
  end.

Definition single_spaced (s : string) : bool := single_spaced_from false s.

Definition no_space (s : string) : bool :=
  all_chars (fun c => negb (is_space c)) s.

Definition no_char (d : char) (s : string) : bool :=
  all_chars (fun c => negb (Char.eqb c d)) s.

(** the number of occurrences of a character *)
Fixpoint count_char (d : char) (s : string) : nat :=
  match s with
  | "" => 0
  | String c s' => (if Char.eqb c d then 1 else 0) + count_char d s'
  end.

(** a database object to run [executeQuery] on in examples: it counts
    the statements executed, and every selection returns the same two rows *)
Definition sampleDatabase : Page.Database nat :=
  Page.mkDatabase nat nat
    (fun d _ => (inr [[("Name", 1); ("Salary", 2)]; [("Name", 3); ("Salary", 4)]], d))
    (fun d _ => (None, S d))
    (fun d => inr d).

Definition sampleState : Page.State nat sampleDatabase :=
  Page.mkState nat sampleDatabase (Some 0) " select Name, Salary from EMPLOYEE"
    None (Some "an earlier error") false (Some "company.db") true.

(** a character of a keyword phrase: ASCII, or whitespace *)
Definition keyword_char (c : char) : bool := N.ltb c 128 || is_space c.

(** [keyword_text r]: [r] is made of ASCII words and of classes of
    keyword characters *)
Fixpoint keyword_text (r : re) : Prop :=
  match r with
  | Chr p | Rep _ p => forall c, p c = true -> keyword_char c = true
  | Lit w => all_chars (fun a => N.ltb a 128) w = true
  | Cat r1 r2 | Alt r1 r2 => keyword_text r1 /\ keyword_text r2
  | Opt r1 | Grp _ r1 => keyword_text r1
  | Ahead _ | Eos => True
  end.

(** the white space code units *)
Definition spaces : list char :=
  [9; 10; 11; 12; 13; 32; 160; 5760; 8192; 8193; 8194; 8195; 8196; 8197;
   8198; 8199; 8200; 8201; 8202; 8232; 8233; 8239; 8287; 12288; 65279]%N.

(** a class of a pattern with the [i] flag (CharacterSetMatcher): the
    code unit [ch] is in the class of the set [A] when a member of [A]
    has the same [Canonicalize] *)
Definition classMatches (A : char -> bool) (ch : char) : Prop :=
  exists a, A a = true /\ canonicalize a = canonicalize ch.

(** a no-break space *)
Definition NBSP : string := String 160%N "".

(** a line feed *)
Definition LF : string := String 10%N "".

(** upper case within ASCII *)
Definition asciiUpper (c : char) : char :=
  if in_range 97 122 c then (c - 32)%N else c.

(** * Properties *)

(** ** Strings *)

Lemma append_nil_r (s : string) : s ++ "" = s.
Proof. induction s; simpl; congruence. Qed.

Lemma append_assoc (a b c : string) : (a ++ b) ++ c = a ++ b ++ c.
Proof. induction a; simpl; congruence. Qed.

Lemma length_append (a b : string) :
  String.length (a ++ b) = String.length a + String.length b.
Proof. induction a; simpl; congruence. Qed.

Lemma take_append (a b : string) : take (String.length a) (a ++ b) = a.
Proof. induction a; simpl; [destruct b; reflexivity | congruence]. Qed.

Lemma consumed_append (w s' : string) : consumed (w ++ s') s' = w.
Proof.
  unfold consumed. rewrite length_append.
  replace (String.length w + String.length s' - String.length s')
    with (String.length w) by lia.
  apply take_append.
Qed.

Lemma string_eqb_eq (a b : string) : (a =? b) = true <-> a = b.
Proof.
  revert b. induction a as [|x a IH]; intros [|y b]; simpl;
    try (split; [discriminate | discriminate]); [tauto|].
  unfold Char.eqb. rewrite andb_true_iff, N.eqb_eq, IH.
  split; [intros [-> ->]; reflexivity | intros H; injection H; auto].
Qed.

Lemma string_eqb_refl (a : string) : (a =? a) = true.
Proof. apply string_eqb_eq. reflexivity. Qed.

(** ** Code units *)

Lemma below_cases (P : N -> bool) (n : nat) :
  forallb P (map N.of_nat (seq 0 n)) = true ->
  forall c : N, (c < N.of_nat n)%N -> P c = true.
Proof.
  intros H c Hc. rewrite forallb_forall in H. apply H.
  apply in_map_iff. exists (N.to_nat c). split; [apply N2Nat.id|].
  apply in_seq. lia.
Qed.

Lemma upcase_ascii (c : char) : (c < 128)%N -> upcase c = String (asciiUpper c) "".
Proof.
  intros H. apply string_eqb_eq. revert c H.
  apply (below_cases (fun c => upcase c =? String (asciiUpper c) "") 128).
  vm_compute. reflexivity.
Qed.

Lemma canonicalize_ascii (c : char) : (c < 128)%N -> canonicalize c = asciiUpper c.
Proof.
  intros H. apply N.eqb_eq. revert c H.
  apply (below_cases (fun c => N.eqb (canonicalize c) (asciiUpper c)) 128).
  vm_compute. reflexivity.
Qed.

Lemma canonicalize_above (c : char) : (128 <= c)%N -> (128 <= canonicalize c)%N.
Proof.
  intros H. unfold canonicalize.
  destruct (toUpperCase (String c "")) as [|cu [|]]; try assumption.
  destruct (N.leb 128 c) eqn:E1; [|apply N.leb_gt in E1; lia].
  destruct (N.ltb cu 128) eqn:E2; simpl; [assumption|].
  apply N.ltb_ge in E2. assumption.
Qed.

(** a code unit that an ASCII character of a pattern matches under the
    [i] flag is that character in one of its two cases *)
Lemma canonicalize_ascii_inv (a b : char) :
  (a < 128)%N -> canonicalize a = canonicalize b ->
  (b < 128)%N /\ asciiUpper b = asciiUpper a.
Proof.
  intros Ha E.
  assert (Hb : (b < 128)%N).
  { destruct (N.lt_ge_cases b 128) as [|Hge]; [assumption|].
    apply canonicalize_above in Hge. rewrite <- E, canonicalize_ascii in Hge by assumption.
    exfalso. revert Hge. unfold asciiUpper, in_range.
    destruct (N.leb 97 a && N.leb a 122); lia. }
  split; [assumption|].
  rewrite <- !canonicalize_ascii by assumption. congruence.
Qed.

Lemma asciiUpper_cases (c : char) :
  asciiUpper c = c \/ ((97 <= c)%N /\ (c <= 122)%N /\ asciiUpper c = (c - 32)%N).
Proof.
  unfold asciiUpper, in_range.
  destruct (N.leb 97 c) eqn:E1; [|left; reflexivity].
  destruct (N.leb c 122) eqn:E2; [|left; reflexivity].
  apply N.leb_le in E1, E2. right. simpl. auto.
Qed.

Lemma space_cases (c : char) : is_space c = true -> In c spaces.
Proof.
  unfold is_space, in_range, spaces. intros H.
  repeat (apply orb_true_iff in H; destruct H as [H|H]);
    try (apply N.eqb_eq in H; subst c; simpl; tauto).
  - apply andb_true_iff in H. destruct H as [H1 H2].
    apply N.leb_le in H1, H2.
    assert (E : (c = 9 \/ c = 10 \/ c = 11 \/ c = 12 \/ c = 13)%N) by lia.
    simpl. intuition.
  - apply andb_true_iff in H. destruct H as [H1 H2].
    apply N.leb_le in H1, H2.
    assert (E : (c = 8192 \/ c = 8193 \/ c = 8194 \/ c = 8195 \/ c = 8196 \/ c = 8197
                 \/ c = 8198 \/ c = 8199 \/ c = 8200 \/ c = 8201 \/ c = 8202)%N) by lia.
    simpl. intuition.
Qed.

(** white space has no case *)
Lemma upcase_space (c : char) : is_space c = true -> upcase c = String c "".
Proof.
  intros H. apply space_cases in H. unfold spaces in H. simpl in H.
  repeat (destruct H as [<-|H]; [vm_compute; reflexivity|]). contradiction.
Qed.

Lemma space_not_surrogate (c : char) :
  is_space c = true -> is_high c = false /\ is_low c = false.
Proof.
  intros H. apply space_cases in H. unfold spaces in H. simpl in H.
  repeat (destruct H as [<-|H]; [split; reflexivity|]). contradiction.
Qed.

Lemma word_is_ascii (c : char) : is_word c = true -> (c < 128)%N.
Proof.
  unfold is_word, in_range. intros H.
  repeat (apply orb_true_iff in H; destruct H as [H|H]);
    try (apply andb_true_iff in H; destruct H as [H1 H2]; apply N.leb_le in H2; lia).
  apply N.eqb_eq in H. lia.
Qed.

Lemma word_not_semicolon (c : char) :
  is_word c = true -> asciiUpper c <> asciiUpper ";".
Proof.
  unfold is_word, in_range. intros H.
  change (asciiUpper ";") with 59%N.
  destruct (asciiUpper_cases c) as [->|(H1 & H2 & ->)].
  - repeat (apply orb_true_iff in H; destruct H as [H|H]);
      try (apply andb_true_iff in H; destruct H as [H3 H4];
           apply N.leb_le in H3, H4; lia).
    apply N.eqb_eq in H. lia.
  - lia.
Qed.

Lemma ascii_not_surrogate (c : char) :
  (c < 128)%N -> is_high c = false /\ is_low c = false.
Proof.
  intros H. unfold is_high, is_low. split.
  - destruct (N.leb 55296 c) eqn:E; [apply N.leb_le in E; lia | reflexivity].
  - destruct (N.leb 56320 c) eqn:E; [apply N.leb_le in E; lia | reflexivity].
Qed.

(** ** The classes of the patterns under the [i] flag *)

(** a line terminator is whitespace *)
Lemma not_dot_is_space (c : char) : is_dot c = false -> is_space c = true.
Proof.
  unfold is_dot. intros H. apply negb_false_iff in H.
  repeat (apply orb_true_iff in H; destruct H as [H|H]);
    apply N.eqb_eq in H; subst c; reflexivity.
Qed.

Lemma findSimple_In (l : list (N * N * N * N)) (cp u : N) :
  findSimple l cp = Some u ->
  exists first last step image,
    In (first, last, step, image) l /\
    (first <= cp)%N /\ (cp <= last)%N /\ u = (image + (cp - first))%N.
Proof.
  induction l as [|[[[first last] step] image] l IH]; simpl; [discriminate|].
  destruct (N.ltb cp first) eqn:E1; [discriminate|].
  destruct (N.leb cp last) eqn:E2; simpl.
  - destruct (N.eqb ((cp - first) mod step) 0).
    + intros H. injection H as <-. apply N.ltb_ge in E1. apply N.leb_le in E2.
      exists first, last, step, image. auto.
    + intros H. destruct (IH H) as (f & la & st & im & Hin & Hr).
      exists f, la, st, im. auto.
  - intros H. destruct (IH H) as (f & la & st & im & Hin & Hr).
    exists f, la, st, im. auto.
Qed.

Lemma findSpecial_In (l : list (N * list N)) (cp : N) (image : list N) :
  findSpecial l cp = Some image -> In (cp, image) l.
Proof.
  induction l as [|[c im] l IH]; simpl; [discriminate|].
  destruct (N.ltb cp c); [discriminate|].
  destruct (N.eqb cp c) eqn:E.
  - apply N.eqb_eq in E. subst c. intros H. injection H as <-. left. reflexivity.
  - intros H. right. apply IH. assumption.
Qed.

(** no upper case is white space *)
Lemma simpleUppercase_no_space :
  forallb (fun e => let '(first, last, step, image) := e in
                    forallb (fun w => negb (in_range image (image + (last - first)) w))
                      spaces)
    simpleUppercase = true.
Proof. vm_compute. reflexivity. Qed.

Lemma specialUppercase_no_space :
  forallb (fun e => match unitsOf (snd e) with
                    | String cu "" => negb (is_space cu)
                    | _ => true
                    end)
    specialUppercase = true.
Proof. vm_compute. reflexivity. Qed.

Lemma units_single (cp cu : N) : units cp = String cu "" -> cu = cp.
Proof.
  unfold units. destruct (N.ltb cp 65536); intros H; [|discriminate].
  injection H as <-. reflexivity.
Qed.

Lemma upcase_into_space (a cu : char) :
  upcase a = String cu "" -> is_space cu = true -> cu = a.
Proof.
  unfold upcase, uppercaseMapping. intros H Hs.
  destruct (findSpecial specialUppercase a) as [image|] eqn:E1.
  - apply findSpecial_In in E1.
    pose proof specialUppercase_no_space as Hc. rewrite forallb_forall in Hc.
    specialize (Hc _ E1). cbn [snd] in Hc. rewrite H, Hs in Hc. discriminate.
  - destruct (findSimple simpleUppercase a) as [u|] eqn:E2.
    + exfalso. cbn [unitsOf] in H. rewrite append_nil_r in H.
      apply units_single in H. subst u.
      destruct (findSimple_In _ _ _ E2) as (first & last & step & image & Hin & H1 & H2 & Hu).
      pose proof simpleUppercase_no_space as Hc. rewrite forallb_forall in Hc.
      specialize (Hc _ Hin). cbn beta iota in Hc. rewrite forallb_forall in Hc.
      specialize (Hc _ (space_cases _ Hs)).
      apply negb_true_iff in Hc. unfold in_range in Hc.
      apply andb_false_iff in Hc. destruct Hc as [Hc|Hc]; apply N.leb_gt in Hc; lia.
    + cbn [unitsOf] in H. rewrite append_nil_r in H. apply units_single in H.
      assumption.
Qed.

Lemma toUpperCase_unit (a : char) : toUpperCase (String a "") = upcase a.
Proof.
  unfold toUpperCase. cbn [upperFrom].
  destruct (is_high a); [reflexivity | apply append_nil_r].
Qed.

Lemma canonicalize_into_space (a : char) :
  is_space (canonicalize a) = true -> canonicalize a = a.
Proof.
  unfold canonicalize. rewrite toUpperCase_unit.
  destruct (upcase a) as [|cu [|]] eqn:E; try reflexivity.
  destruct (N.leb 128 a && N.ltb cu 128); [reflexivity|].
  intros H. apply (upcase_into_space _ _ E H).
Qed.

Lemma canonicalize_space (a : char) : is_space a = true -> canonicalize a = a.
Proof.
  intros H. unfold canonicalize. rewrite toUpperCase_unit, upcase_space by assumption.
  destruct (N.leb 128 a && N.ltb a 128); reflexivity.
Qed.

Lemma is_word_iff (c : char) :
  is_word c = true <->
  ((65 <= c <= 90) \/ (97 <= c <= 122) \/ (48 <= c <= 57) \/ c = 95)%N.
Proof.
  unfold is_word, in_range.
  rewrite !orb_true_iff, !andb_true_iff, !N.leb_le, N.eqb_eq. tauto.
Qed.

(** The classes of the patterns hold the same code units with the [i]
    flag as without it: [\s], [\w], [.] and [[^;]] are read without
    [Canonicalize]. *)
Lemma classes_ignore_case (ch : char) :
  (classMatches is_space ch <-> is_space ch = true) /\
  (classMatches is_word ch <-> is_word ch = true) /\
  (classMatches is_dot ch <-> is_dot ch = true) /\
  (~ classMatches (fun a => Char.eqb a ";") ch <-> not_semicolon ch = true).
Proof.
  assert (Hself : forall A : char -> bool, A ch = true -> classMatches A ch).
  { intros A H. exists ch. split; [assumption | reflexivity]. }
  split; [|split; [|split]].
  - split; [|apply Hself]. intros (a & Ha & E).
    rewrite (canonicalize_space _ Ha) in E.
    assert (E' : canonicalize ch = ch).
    { apply canonicalize_into_space. rewrite <- E. assumption. }
    rewrite E' in E. subst a. assumption.
  - split; [|apply Hself]. intros (a & Ha & E).
    destruct (canonicalize_ascii_inv _ _ (word_is_ascii _ Ha) E) as (_ & Hu).
    apply is_word_iff in Ha. apply is_word_iff.
    destruct (asciiUpper_cases a) as [E1|(H1 & H2 & E1)];
      destruct (asciiUpper_cases ch) as [E2|(H3 & H4 & E2)];
      rewrite E1, E2 in Hu; lia.
  - split; [|apply Hself]. intros (a & Ha & E).
    destruct (is_dot ch) eqn:Ed; [reflexivity|]. exfalso.
    apply not_dot_is_space in Ed as Hs.
    rewrite (canonicalize_space _ Hs) in E.
    assert (E' : canonicalize a = a).
    { apply canonicalize_into_space. rewrite E. assumption. }
    rewrite E' in E. subst a. rewrite Ha in Ed. discriminate.
  - unfold not_semicolon. split.
    + intros H. apply negb_true_iff, N.eqb_neq. intros ->. apply H.
      exists ";"%cu. split; reflexivity.
    + intros H (a & Ha & E). apply N.eqb_eq in Ha. subst a.
      apply negb_true_iff, N.eqb_neq in H. apply H.
      destruct (canonicalize_ascii_inv ";" ch) as (Hc & Hu);
        [reflexivity | assumption |].
      change (asciiUpper ";") with 59%N in Hu. change ";"%cu with 59%N.
      destruct (asciiUpper_cases ch) as [E1|(H1 & H2 & E1)]; rewrite E1 in Hu; lia.
Qed.

(** ** Upper case of a text in parts *)

Lemma upperFrom_append (pending : option char) (a b : string) :
  match b with String c _ => is_low c = false | "" => True end ->
  upperFrom pending (a ++ b) = upperFrom pending a ++ upperFrom None b.
Proof.
  intros Hb. revert pending. induction a as [|x a IH]; intros pending.
  - simpl. destruct pending as [h|]; [|reflexivity].
    destruct b as [|c b]; [symmetry; apply append_nil_r|].
    cbn [upperFrom]. rewrite Hb.
    destruct (is_high c); [reflexivity | reflexivity].
  - cbn [String.append upperFrom]. destruct pending as [h|].
    + destruct (is_low x); [rewrite IH, append_assoc; reflexivity|].
      destruct (is_high x); rewrite IH, ?append_assoc; reflexivity.
    + destruct (is_high x); rewrite IH, ?append_assoc; reflexivity.
Qed.

Lemma toUpperCase_append (a b : string) :
  match b with String c _ => is_low c = false | "" => True end ->
  toUpperCase (a ++ b) = toUpperCase a ++ toUpperCase b.
Proof. apply upperFrom_append. Qed.

Lemma toUpperCase_cons_ascii (c : char) (s : string) :
  (c < 128)%N -> toUpperCase (String c s) = String (asciiUpper c) (toUpperCase s).
Proof.
  intros H. unfold toUpperCase. cbn [upperFrom].
  rewrite (proj1 (ascii_not_surrogate c H)), upcase_ascii by assumption. reflexivity.
Qed.

Lemma toUpperCase_cons_space (c : char) (s : string) :
  is_space c = true -> toUpperCase (String c s) = String c (toUpperCase s).
Proof.
  intros H. unfold toUpperCase. cbn [upperFrom].
  rewrite (proj1 (space_not_surrogate c H)), upcase_space by assumption. reflexivity.
Qed.

(** ** The matcher returns matches of the declarative relation *)

Lemma lit_match_inv (w s s' : string) :
  lit_match w s = Some s' ->
  exists v, s = v ++ s' /\ lit_match w v = Some "".
Proof.
  revert s. induction w as [|a w IH]; intros s H; simpl in H.
  - exists "". inversion H. split; reflexivity.
  - destruct s as [|b s]; [discriminate|].
    destruct (Char.eqb (canonicalize a) (canonicalize b)) eqn:E; [|discriminate].
    destruct (IH _ H) as (v & -> & Hv).
    exists (String b v). simpl. rewrite E. split; [reflexivity | assumption].
Qed.

Lemma lit_match_length (w v : string) :
  lit_match w v = Some "" -> String.length v = String.length w.
Proof.
  revert v. induction w as [|a w IH]; intros v H; simpl in H.
  - injection H as ->. reflexivity.
  - destruct v as [|b v]; [discriminate|].
    destruct (Char.eqb (canonicalize a) (canonicalize b)); [|discriminate].
    simpl. f_equal. apply IH. assumption.
Qed.

(** the last character of the text that a literal matched *)
Lemma lit_match_last (w v : string) (a : char) :
  lit_match w v = Some "" -> lastChar w = Some a ->
  exists b, lastChar v = Some b /\ canonicalize a = canonicalize b.
Proof.
  revert v. induction w as [|x w IH]; intros v H Ha; [discriminate|].
  simpl in H. destruct v as [|y v]; [discriminate|].
  destruct (Char.eqb (canonicalize x) (canonicalize y)) eqn:E; [|discriminate].
  pose proof (lit_match_length _ _ H) as Hlen.
  destruct w as [|x' w].
  - destruct v; [|discriminate]. simpl in Ha. injection Ha as <-.
    exists y. split; [reflexivity|]. apply N.eqb_eq. exact E.
  - destruct v as [|y' v]; [discriminate|].
    apply (IH _ H Ha).
Qed.

Lemma rep_loop_sound (g : bool) (p : char -> bool) (k : string -> option state)
    (c : captures) (s : string) (x : state) :
  rep_loop g p k s = Some x ->
  exists s', matches (Rep g p) s c s' c /\ k s' = Some x.
Proof.
  destruct g; induction s as [|a s IH]; simpl; intros H.
  - exists "". split; [constructor | assumption].
  - destruct (p a) eqn:Ep.
    + destruct (rep_loop true p k s) eqn:El.
      * destruct (IH H) as (s' & Hm & Hk).
        exists s'. split; [constructor; assumption | congruence].
      * exists (String a s). split; [constructor | assumption].
    + exists (String a s). split; [constructor | assumption].
  - exists "". split; [constructor|].
    destruct (k ""); [assumption | discriminate].
  - destruct (k (String a s)) eqn:Ek.
    + exists (String a s). split; [constructor | congruence].
    + destruct (p a) eqn:Ep; [|discriminate].
      destruct (IH H) as (s' & Hm & Hk).
      exists s'. split; [constructor; assumption | assumption].
Qed.

Lemma run_sound (r : re) :
  forall (s : string) (c : captures) (k : cont) (x : state),
    run r s c k = Some x ->
    exists s' c', matches r s c s' c' /\ k s' c' = Some x.
Proof.
  induction r as [p|w|r1 IH1 r2 IH2|r1 IH1 r2 IH2|g p|r IH|n r IH|r IH|];
    intros s c k x H; simpl in H.
  - destruct s as [|a s]; [discriminate|].
    destruct (p a) eqn:Ep; [|discriminate].
    exists s, c. split; [constructor; assumption | assumption].
  - destruct (lit_match w s) as [s'|] eqn:El; [|discriminate].
    exists s', c. split; [constructor; assumption | assumption].
  - destruct (IH1 _ _ _ _ H) as (s1 & c1 & H1 & Hk).
    destruct (IH2 _ _ _ _ Hk) as (s2 & c2 & H2 & Hk2).
    exists s2, c2. split; [econstructor; eassumption | assumption].
  - destruct (run r1 s c k) eqn:E1.
    + destruct (IH1 _ _ _ _ E1) as (s' & c' & H1 & Hk).
      exists s', c'. split; [apply M_AltL; assumption | congruence].
    + destruct (IH2 _ _ _ _ H) as (s' & c' & H2 & Hk).
      exists s', c'. split; [apply M_AltR; assumption | assumption].
  - destruct (rep_loop_sound g p _ c s x H) as (s' & Hm & Hk).
    exists s', c. split; assumption.
  - match type of H with
    | match ?e with _ => _ end = _ => destruct e eqn:E1
    end.
    + destruct (IH _ _ _ _ E1) as (s' & c' & H1 & Hk).
      destruct (Nat.eqb (String.length s') (String.length s)); [discriminate|].
      exists s', c'. split; [apply M_OptSome; assumption | congruence].
    + exists s, c. split; [apply M_OptNone | assumption].
  - destruct (IH _ _ _ _ H) as (s' & c' & H1 & Hk).
    exists s', ((n, consumed s s') :: c'). split; [constructor; assumption | assumption].
  - destruct (run r s c (fun s1 c1 => Some (s1, c1))) as [[s1 c1]|] eqn:E1;
      [|discriminate].
    destruct (IH _ _ _ _ E1) as (s' & c' & H1 & Hk).
    inversion Hk; subst.
    exists s, c1. split; [econstructor; eassumption | assumption].
  - destruct s; [|discriminate].
    exists "", c. split; [constructor | assumption].
Qed.

Lemma matches_suffix (r : re) (s s' : string) (c c' : captures) :
  matches r s c s' c' -> exists w, s = w ++ s'.
Proof.
  induction 1.
  - exists (String a ""). reflexivity.
  - destruct (lit_match_inv _ _ _ H) as (v & -> & _). exists v. reflexivity.
  - destruct IHmatches1 as (w1 & ->). destruct IHmatches2 as (w2 & ->).
    exists (w1 ++ w2). symmetry. apply append_assoc.
  - assumption.
  - assumption.
  - exists "". reflexivity.
  - destruct IHmatches as (w & ->). exists (String a w). reflexivity.
  - assumption.
  - exists "". reflexivity.
  - assumption.
  - exists "". reflexivity.
  - exists "". reflexivity.
Qed.

Lemma matches_binds (r : re) (s s' : string) (c c' : captures) (n : nat) :
  matches r s c s' c' ->
  binds r n = true \/ capture n c <> None ->
  capture n c' <> None.
Proof.
  induction 1 as [p a s c Hp|w s s' c Hl|r1 r2 s c s1 c1 s2 c2 H1 IH1 H2 IH2
                 |r1 r2 s c s' c' H1 IH1|r1 r2 s c s' c' H2 IH2
                 |g p s c|g p a s c s' Hp H1 IH1
                 |r s c s' c' H1 IH1|r s c
                 |m r s c s' c' H1 IH1|r s c s' c' H1 IH1|c];
    simpl; intros [Hb|Hb]; try discriminate; try assumption.
  - apply orb_true_iff in Hb. destruct Hb as [Hb|Hb]; auto.
  - auto.
  - apply andb_true_iff in Hb. apply IH1. left; tauto.
  - auto.
  - apply andb_true_iff in Hb. apply IH2. left; tauto.
  - auto.
  - auto.
  - destruct (Nat.eqb m n) eqn:E; [discriminate | auto].
  - destruct (Nat.eqb m n) eqn:E; [discriminate | auto].
  - auto.
  - auto.
Qed.

Lemma exec_here_inv (r : re) (s s' : string) (c : captures) :
  exec_here r s = Some (s', c) ->
  s = consumed s s' ++ s' /\ matches r s [] s' c.
Proof.
  intros E. destruct (run_sound _ _ _ _ _ E) as (s1 & c1 & Hm & Hk).
  inversion Hk; subst.
  destruct (matches_suffix _ _ _ _ _ Hm) as (w & Hw).
  split; [|assumption].
  rewrite Hw at 2. rewrite consumed_append. assumption.
Qed.

(** what a successful search found *)
Lemma search_from_inv (r : re) (t : string) :
  forall (i : nat) (m : MatchResult),
    search_from r i t = Some m ->
    exists pre s',
      t = pre ++ whole m ++ s' /\
      index m = i + String.length pre /\
      matches r (whole m ++ s') [] s' (groups m).
Proof.
  induction t as [|a t IH]; intros i m H; simpl in H.
  - destruct (exec_here r "") as [[s' c]|] eqn:E; [|discriminate].
    inversion H; subst; clear H. cbn [index whole groups].
    destruct (exec_here_inv _ _ _ _ E) as (Hs & Hm).
    exists "", s'. rewrite <- Hs. repeat split; [simpl; lia | assumption].
  - destruct (exec_here r (String a t)) as [[s' c]|] eqn:E.
    + inversion H; subst; clear H. cbn [index whole groups].
      destruct (exec_here_inv _ _ _ _ E) as (Hs & Hm).
      exists "", s'. rewrite <- Hs. repeat split; [simpl; lia | assumption].
    + destruct (IH _ _ H) as (pre & s' & Ht & Hi & Hm).
      exists (String a pre), s'. simpl. repeat split; [congruence | lia | assumption].
Qed.

Lemma search_binds (r : re) (t : string) (m : MatchResult) (n : nat) :
  binds r n = true -> search r t = Some m -> group m n <> None.
Proof.
  intros Hb H. destruct (search_from_inv _ _ _ _ H) as (pre & s' & _ & _ & Hm).
  unfold group. eapply matches_binds; [eassumption | left; assumption].
Qed.

(** ** The [try] block of parseSQL completes *)

Lemma split_on_length (d : char) (s : string) : 1 <= List.length (split_on d s).
Proof.
  induction s as [|c s IH]; simpl; [lia|].
  destruct (Char.eqb c d); simpl; [lia|].
  destruct (split_on d s); simpl; lia.
Qed.

Lemma split_ws_from_length (b : bool) (s : string) :
  1 <= List.length (split_ws_from b s).
Proof.
  revert b. induction s as [|c s IH]; intros b; simpl; [lia|].
  destruct (is_space c).
  - destruct b; simpl; [apply IH | lia].
  - destruct (split_ws_from false s); simpl; lia.
Qed.

Lemma clause_normal {A : Type} (r : re) (t : string) (f : string -> list A) :
  binds r 1 = true ->
  exists l, clause (search r t) f = Normal l /\
    (search r t = None -> l = []) /\
    (forall m, search r t = Some m -> exists v, group m 1 = Some v /\ l = f v).
Proof.
  intros Hb. unfold clause. destruct (search r t) as [m|] eqn:E.
  - pose proof (search_binds _ _ _ _ Hb E) as Hg.
    destruct (group m 1) as [v|] eqn:Ev; [|congruence].
    exists (f v). simpl. split; [reflexivity|]. split; [discriminate|].
    intros m' Hm'. inversion Hm'; subst. exists v. split; [assumption | reflexivity].
  - exists []. split; [reflexivity|]. split; [reflexivity | discriminate].
Qed.

Lemma parseJoin_normal (m : string) : exists j, parseJoin m = Normal j.
Proof.
  unfold parseJoin. destruct (search partsRe m) as [parts|] eqn:E.
  - pose proof (search_binds partsRe _ _ 1 eq_refl E) as H1.
    pose proof (search_binds partsRe _ _ 2 eq_refl E) as H2.
    destruct (group parts 1); [|congruence].
    destruct (group parts 2); [|congruence].
    simpl. eexists. reflexivity.
  - eexists. reflexivity.
Qed.

Lemma mapM_normal {A B : Type} (f : A -> completion B) (l : list A) :
  (forall x, exists y, f x = Normal y) -> exists ys, mapM f l = Normal ys.
Proof.
  intros Hf. induction l as [|x l IH]; simpl.
  - eexists. reflexivity.
  - destruct (Hf x) as (y & ->). destruct IH as (ys & ->). simpl.
    eexists. reflexivity.
Qed.

Lemma parseJoins_normal (t : string) :
  exists js, parseJoins t = Normal js /\ (match_all joinRegex t = None -> js = []).
Proof.
  unfold parseJoins. destruct (match_all joinRegex t) as [l|].
  - destruct (mapM_normal parseJoin l parseJoin_normal) as (ys & ->). simpl.
    eexists. split; [reflexivity | discriminate].
  - exists []. split; reflexivity.
Qed.

(** the shape of every run of the [try] block *)
Lemma parseSQL_try_inv (t : string) :
  ((search selectRe t = None \/ search fromRe t = None) /\
   parseSQL_try t = Normal None)
  \/
  (exists sm fm cs ts conds js gb ob hv,
      search selectRe t = Some sm /\ group sm 1 = Some cs /\
      search fromRe t = Some fm /\ group fm 1 = Some ts /\
      clause (search whereRe t) (fun v => [trim v]) = Normal conds /\
      parseJoins t = Normal js /\
      clause (search groupByRe t) (fun v => map trim (split_on "," v)) = Normal gb /\
      clause (search orderByRe t) (fun v => map parseOrderItem (split_on "," v))
        = Normal ob /\
      clause (search havingRe t) (fun v => [trim v]) = Normal hv /\
      parseSQL_try t =
        Normal (Some (mkParsedQuery "SELECT" (map parseTable (split_on "," ts))
                        (parseColumns cs) conds js gb ob hv))).
Proof.
  unfold parseSQL_try.
  destruct (search selectRe t) as [sm|] eqn:Es; [|left; auto].
  pose proof (search_binds selectRe _ _ 1 eq_refl Es) as Hs.
  destruct (group sm 1) as [cs|] eqn:Ecs; [|congruence]. simpl.
  destruct (search fromRe t) as [fm|] eqn:Ef; [|left; auto].
  pose proof (search_binds fromRe _ _ 1 eq_refl Ef) as Hf.
  destruct (group fm 1) as [ts|] eqn:Ets; [|congruence]. simpl.
  destruct (clause_normal whereRe t (fun v => [trim v]) eq_refl) as (conds & Ec & _).
  destruct (parseJoins_normal t) as (js & Ej & _).
  destruct (clause_normal groupByRe t (fun v => map trim (split_on "," v)) eq_refl)
    as (gb & Eg & _).
  destruct (clause_normal orderByRe t
              (fun v => map parseOrderItem (split_on "," v)) eq_refl) as (ob & Eo & _).
  destruct (clause_normal havingRe t (fun v => [trim v]) eq_refl) as (hv & Eh & _).
  right. exists sm, fm, cs, ts, conds, js, gb, ob, hv.
  rewrite Ec, Ej, Eg, Eo, Eh. simpl. repeat split; assumption || reflexivity.
Qed.

(** ** The SELECT guard *)

Lemma startsWith_inv (p s : string) :
  startsWith s p = true -> exists rest, s = p ++ rest.
Proof.
  revert s. induction p as [|a p IH]; intros s H; simpl in H.
  - exists s. reflexivity.
  - destruct s as [|b s]; [discriminate|].
    apply andb_true_iff in H. destruct H as [Hab H].
    apply N.eqb_eq in Hab. destruct (IH _ H) as (rest & ->).
    exists rest. simpl. congruence.
Qed.

Lemma startsWith_append (p rest : string) : startsWith (p ++ rest) p = true.
Proof.
  induction p as [|a p IH]; simpl; [reflexivity|].
  rewrite N.eqb_refl. assumption.
Qed.

Lemma trimEnd_cons_nonspace (c : char) (s : string) :
  is_space c = false -> trimEnd (String c s) = String c (trimEnd s).
Proof. intros H. simpl. rewrite H. reflexivity. Qed.

Lemma trimEnd_nonspace_prefix (w s : string) :
  all_chars (fun c => negb (is_space c)) w = true ->
  trimEnd (w ++ s) = w ++ trimEnd s.
Proof.
  induction w as [|c w IH]; intros H; [reflexivity|].
  simpl in H. apply andb_true_iff in H. destruct H as [Hc Hw].
  apply negb_true_iff in Hc.
  change (String c w ++ s) with (String c (w ++ s)).
  rewrite trimEnd_cons_nonspace by assumption.
  rewrite IH by assumption. reflexivity.
Qed.

Lemma trimEnd_split (s : string) :
  exists tail, s = trimEnd s ++ tail /\ blank tail = true.
Proof.
  induction s as [|c s (tail & IH & Hb)]; simpl.
  - exists "". split; reflexivity.
  - destruct (is_space c) eqn:Ec; simpl.
    + destruct (trimEnd s =? "") eqn:E.
      * apply string_eqb_eq in E. rewrite E in IH. simpl in IH. subst tail.
        exists (String c s). split; [reflexivity|].
        unfold blank in *. simpl. rewrite Ec. assumption.
      * exists tail. split; [simpl; congruence | assumption].
    + exists tail. split; [simpl; congruence | assumption].
Qed.

Lemma toUpperCase_blank (b : string) : blank b = true -> toUpperCase b = b.
Proof.
  unfold blank. induction b as [|c b IH]; intros H; [reflexivity|].
  simpl in H. apply andb_true_iff in H. destruct H as [Hc Hb].
  rewrite toUpperCase_cons_space by assumption. rewrite IH by assumption.
  reflexivity.
Qed.

Lemma blank_not_low (b : string) :
  blank b = true ->
  match b with String c _ => is_low c = false | "" => True end.
Proof.
  destruct b as [|c b]; [trivial|]. unfold blank. simpl. intros H.
  apply andb_true_iff in H. destruct H as [Hc _].
  apply space_not_surrogate. assumption.
Qed.

(** the upper case of a text is that of its trimmed part, then its
    trailing whitespace *)
Lemma toUpperCase_trimEnd (s : string) :
  exists tail, blank tail = true /\
               toUpperCase s = toUpperCase (trimEnd s) ++ tail.
Proof.
  destruct (trimEnd_split s) as (tail & Hs & Hb).
  exists tail. split; [assumption|].
  rewrite Hs at 1. rewrite toUpperCase_append by (apply blank_not_low; assumption).
  rewrite (toUpperCase_blank _ Hb). reflexivity.
Qed.

Lemma startsWith_append_l (a b p : string) :
  startsWith a p = true -> startsWith (a ++ b) p = true.
Proof.
  intros H. apply startsWith_inv in H. destruct H as (rest & ->).
  rewrite append_assoc. apply startsWith_append.
Qed.

Lemma startsWith_blank_tail (a b p : string) :
  blank b = true -> all_chars (fun c => negb (is_space c)) p = true ->
  startsWith (a ++ b) p = true -> startsWith a p = true.
Proof.
  intros Hb. revert p. induction a as [|c a IH]; intros p Hp H.
  - destruct p as [|x p]; [reflexivity|]. exfalso.
    destruct b as [|y b]; [discriminate|]. simpl in H, Hp, Hb. unfold blank in Hb.
    simpl in Hb.
    apply andb_true_iff in H, Hp, Hb. destruct H as [H _], Hp as [Hp _], Hb as [Hb _].
    apply N.eqb_eq in H. subst y. rewrite Hb in Hp. discriminate.
  - destruct p as [|x p]; [reflexivity|]. simpl in H, Hp |- *.
    apply andb_true_iff in H, Hp. destruct H as [H1 H2], Hp as [_ Hp].
    rewrite H1. simpl. apply IH; assumption.
Qed.

(** the guard of [parseSQL], which reads the text trimmed at both ends,
    is the property of the text trimmed at its start *)
Lemma guard_iff (q : string) :
  startsWith (toUpperCase (trim q)) "SELECT" = true <-> beginsWithSelect q.
Proof.
  unfold beginsWithSelect, trim.
  destruct (toUpperCase_trimEnd (trimStart q)) as (tail & Hb & ->).
  split.
  - apply startsWith_append_l.
  - apply startsWith_blank_tail; [assumption | reflexivity].
Qed.

(** C3: an input that does not begin with SELECT (in any case: its upper
    case does not begin with SELECT; after its leading whitespace) is not
    parseable: [parseSQL] returns [null] before the [try] block is
    entered, and no algebra string is produced. *)
Theorem C3_not_select_is_unparseable (q : string) :
  ~ beginsWithSelect q -> parseSQL q = None /\ convert q = None.
Proof.
  intros H.
  assert (Hp : parseSQL q = None).
  { unfold parseSQL.
    destruct (startsWith (toUpperCase (trim q)) "SELECT") eqn:E; [|reflexivity].
    exfalso. apply H. apply guard_iff. assumption. }
  split; [assumption|]. unfold convert. rewrite Hp. reflexivity.
Qed.

Lemma C3_witness :
  parseSQL "  update T set a = 1" = None /\ convert "  update T set a = 1" = None.
Proof.
  apply C3_not_select_is_unparseable.
  unfold beginsWithSelect. intros H. vm_compute in H. discriminate H.
Defined.

(** The guard follows [trim] and [toUpperCase] outside ASCII as well: a
    no-break space or a byte order mark before SELECT is trimmed, and a
    long s (U+017F), whose upper case is S, begins the keyword. *)
Lemma guard_trims_no_break_space :
  beginsWithSelect (String 160%N "SELECT a FROM t") /\
  beginsWithSelect (String 65279%N "SELECT a FROM t") /\
  convert (String 160%N "SELECT a FROM t") = Some "π[a](t)" /\
  convert (String 65279%N "SELECT a FROM t") = Some "π[a](t)".
Proof. unfold beginsWithSelect. repeat split; vm_compute; reflexivity. Qed.

Lemma guard_takes_long_s :
  beginsWithSelect "ſelect SELECT a FROM t" /\
  convert "ſelect SELECT a FROM t" = Some "π[a](t)" /\
  beginsWithSelect "ſelect a FROM t" /\
  convert "ſelect a FROM t" = None.
Proof. unfold beginsWithSelect. repeat split; vm_compute; reflexivity. Qed.

(** ** Outcomes of the extraction *)

Lemma clause_value {A : Type} (r : re) (t : string) (f : string -> list A)
    (l : list A) :
  binds r 1 = true ->
  clause (search r t) f = Normal l ->
  match search r t with
  | None => l = []
  | Some m => exists v, group m 1 = Some v /\ l = f v
  end.
Proof.
  intros Hb Hl.
  destruct (clause_normal r t f Hb) as (l' & El & Hnone & Hsome).
  rewrite Hl in El. injection El as <-.
  destruct (search r t) as [m|]; auto.
Qed.

(** For an input that begins with SELECT, the [try] block never raises;
    the result is [null] exactly when the pattern of the SELECT list or
    that of the FROM list has no match; otherwise a ParsedQuery is
    returned in which every other clause is empty when its pattern has no
    match and holds the capture of the match when it has one. *)
Lemma extraction_outcomes (q : string) :
  beginsWithSelect q ->
  let t := trim q in
  (exists r, parseSQL_try t = Normal r /\ parseSQL q = r) /\
  (parseSQL q = None <-> search selectRe t = None \/ search fromRe t = None) /\
  (forall p, parseSQL q = Some p ->
     match search whereRe t with
     | None => conditions p = []
     | Some m => exists v, group m 1 = Some v /\ conditions p = [trim v]
     end /\
     (match_all joinRegex t = None -> joins p = []) /\
     match search groupByRe t with
     | None => groupBy p = []
     | Some m => exists v, group m 1 = Some v /\
                           groupBy p = map trim (split_on "," v)
     end /\
     match search havingRe t with
     | None => having p = []
     | Some m => exists v, group m 1 = Some v /\ having p = [trim v]
     end /\
     match search orderByRe t with
     | None => orderBy p = []
     | Some m => exists v, group m 1 = Some v /\
                           orderBy p = map parseOrderItem (split_on "," v)
     end).
Proof.
  intros Hq t. apply guard_iff in Hq.
  assert (Hp : parseSQL q = match parseSQL_try t with Normal r => r | Throw => None end).
  { unfold parseSQL. cbv zeta. subst t. rewrite Hq. reflexivity. }
  destruct (parseSQL_try_inv t) as
    [(Hnone & Ht) | (sm & fm & cs & ts & conds & js & gb & ob & hv &
                     Hs & _ & Hf & _ & Hc & Hj & Hg & Ho & Hh & Ht)];
    rewrite Ht in Hp.
  - split; [exists None; split; [exact Ht | exact Hp]|]. split; [tauto|].
    intros p Hsome. congruence.
  - split; [eexists; split; [exact Ht | exact Hp]|].
    split.
    + rewrite Hp, Hs, Hf. split; [discriminate | intros [H|H]; discriminate].
    + intros p Hsome. rewrite Hp in Hsome. injection Hsome as <-. simpl.
      split; [apply clause_value in Hc; [assumption | reflexivity]|].
      split.
      { intros Hm. destruct (parseJoins_normal t) as (js' & Ej & Hjs).
        rewrite Hj in Ej. injection Ej as <-. auto. }
      split; [apply clause_value in Hg; [assumption | reflexivity]|].
      split; [apply clause_value in Hh; [assumption | reflexivity]|].
      apply clause_value in Ho; [assumption | reflexivity].
Qed.

(** C4: the text of a clause is not always captured.  The captures of
    the clause patterns are [(.+?)], and [.] does not match a line
    terminator, nor [$] the end of a line: a WHERE text written on two
    lines is dropped, the extracted query has no condition, and the
    rendered expression no selection; written on one line, the same text
    is captured whole.  A SELECT list or a FROM list written on two lines
    is not found either, and the query is not parseable. *)
Theorem C4_where_text_on_two_lines :
  parseSQL ("SELECT x FROM T WHERE a = 1" ++ LF ++ "AND b = 2")
    = Some (mkParsedQuery "SELECT" ["T"] ["x"] [] [] [] [] []) /\
  convert ("SELECT x FROM T WHERE a = 1" ++ LF ++ "AND b = 2") = Some "π[x](T)" /\
  parseSQL "SELECT x FROM T WHERE a = 1 AND b = 2"
    = Some (mkParsedQuery "SELECT" ["T"] ["x"] ["a = 1 AND b = 2"] [] [] [] []) /\
  convert "SELECT x FROM T WHERE a = 1 AND b = 2"
    = Some "π[x](σ[a = 1 AND b = 2](T))" /\
  parseSQL ("SELECT x," ++ LF ++ "y FROM T") = None /\
  parseSQL ("SELECT x FROM A," ++ LF ++ "B") = None.
Proof. repeat split; vm_compute; reflexivity. Qed.

(** a line break between clauses is whitespace like any other *)
Lemma clauses_on_separate_lines :
  convert ("SELECT x" ++ LF ++ "FROM T" ++ LF ++ "WHERE a = 1")
    = Some "π[x](σ[a = 1](T))".
Proof. vm_compute. reflexivity. Qed.

(** ** Invariants of an extracted ParsedQuery *)

Lemma parseSQL_Some_inv (q : string) (p : ParsedQuery) :
  parseSQL q = Some p ->
  exists cs ts conds js gb ob hv,
    clause (search whereRe (trim q)) (fun v => [trim v]) = Normal conds /\
    clause (search groupByRe (trim q)) (fun v => map trim (split_on "," v))
      = Normal gb /\
    clause (search orderByRe (trim q))
      (fun v => map parseOrderItem (split_on "," v)) = Normal ob /\
    clause (search havingRe (trim q)) (fun v => [trim v]) = Normal hv /\
    p = mkParsedQuery "SELECT" (map parseTable (split_on "," ts))
          (parseColumns cs) conds js gb ob hv.
Proof.
  unfold parseSQL. cbv zeta.
  destruct (negb (startsWith (toUpperCase (trim q)) "SELECT")); [discriminate|].
  destruct (parseSQL_try_inv (trim q)) as
    [(_ & Ht) | (sm & fm & cs & ts & conds & js & gb & ob & hv &
                 _ & _ & _ & _ & Hc & _ & Hg & Ho & Hh & Ht)];
    rewrite Ht; intros H; [discriminate|].
  injection H as <-. exists cs, ts, conds, js, gb, ob, hv. auto.
Qed.

Lemma parseColumns_length (cs : string) : 1 <= List.length (parseColumns cs).
Proof.
  unfold parseColumns. destruct (cs =? "*"); simpl; [lia|].
  rewrite length_map. apply split_on_length.
Qed.

Lemma clause_singleton_length (r : re) (t : string) (l : list string) :
  clause (search r t) (fun v => [trim v]) = Normal l -> List.length l <= 1.
Proof.
  unfold clause. destruct (search r t) as [m|].
  - destruct (group m 1); simpl; intros H; [|discriminate].
    injection H as <-. simpl. lia.
  - intros H. injection H as <-. simpl. lia.
Qed.

(** C10: an extracted ParsedQuery has operation SELECT, at least one
    table, at least one column, and at most one WHERE and one HAVING
    text; its base relation is therefore the single table, or the product
    of at least two. *)
Theorem C10_extracted_query_invariants (q : string) (p : ParsedQuery) :
  parseSQL q = Some p ->
  operation p = "SELECT" /\
  1 <= List.length (tables p) /\
  1 <= List.length (columns p) /\
  List.length (conditions p) <= 1 /\
  List.length (having p) <= 1 /\
  ((exists t, tables p = [t] /\ baseRelation p = t) \/
   (2 <= List.length (tables p) /\
    baseRelation p = "(" ++ join " × " (tables p) ++ ")")).
Proof.
  intros H.
  destruct (parseSQL_Some_inv _ _ H) as
    (cs & ts & conds & js & gb & ob & hv & Hc & _ & _ & Hh & ->).
  assert (Ht : 1 <= List.length (map parseTable (split_on "," ts))).
  { rewrite length_map. apply split_on_length. }
  simpl. split; [reflexivity|]. split; [assumption|].
  split; [apply parseColumns_length|].
  split; [eapply clause_singleton_length; eassumption|].
  split; [eapply clause_singleton_length; eassumption|].
  unfold baseRelation. simpl.
  destruct (map parseTable (split_on "," ts)) as [|t0 [|t1 l]]; simpl in *.
  - lia.
  - left. exists t0. split; reflexivity.
  - right. split; [lia | reflexivity].
Qed.

Lemma C10_witness :
  operation (mkParsedQuery "SELECT" ["A"; "B"] ["*"] [] [] [] [] []) = "SELECT" /\
  1 <= 2 /\ 1 <= 1 /\ 0 <= 1 /\ 0 <= 1 /\
  ((exists t, ["A"; "B"] = [t] /\ "(A × B)" = t) \/
   (2 <= 2 /\ "(A × B)" = "(A × B)")).
Proof.
  exact (C10_extracted_query_invariants "SELECT * FROM A, B"
           (mkParsedQuery "SELECT" ["A"; "B"] ["*"] [] [] [] [] []) eq_refl).
Defined.

(** ** The renderer *)

Lemma replace_eq_id (s : string) : replace_eq s = s.
Proof.
  induction s as [|c s IH]; simpl; [reflexivity|].
  destruct (Char.eqb c "=") eqn:E; simpl; rewrite IH; [|reflexivity].
  apply N.eqb_eq in E. congruence.
Qed.

(** one join step: the symbol, the condition with its whitespace runs
    collapsed, the table *)
Lemma applyJoin_shape (acc : string) (j : Join) :
  applyJoin acc j =
  "(" ++ acc ++ " " ++ joinSymbol j ++ "[" ++ collapse_ws (condition j) ++ "] "
      ++ table j ++ ")".
Proof. unfold applyJoin. rewrite replace_eq_id. reflexivity. Qed.

(** joins are applied in the order of the list: the last one is outermost *)
Lemma fold_applyJoin_last (acc : string) (js : list Join) (j : Join) :
  fold_left applyJoin (js ++ [j])%list acc = applyJoin (fold_left applyJoin js acc) j.
Proof. apply fold_left_app. Qed.

Lemma joinSymbol_single_space (t c k : string) :
  (joinSymbol (mkJoin "LEFT JOIN" t c) = "⟕" /\
   joinSymbol (mkJoin "LEFT OUTER JOIN" t c) = "⟕") /\
  (joinSymbol (mkJoin "RIGHT JOIN" t c) = "⟖" /\
   joinSymbol (mkJoin "RIGHT OUTER JOIN" t c) = "⟖") /\
  (joinSymbol (mkJoin "FULL JOIN" t c) = "⟗" /\
   joinSymbol (mkJoin "FULL OUTER JOIN" t c) = "⟗") /\
  (joinSymbol (mkJoin "INNER JOIN" t c) = "⋈" /\
   joinSymbol (mkJoin "JOIN" t c) = "⋈").
Proof. repeat split. Qed.

Lemma ltb_length_nonempty {A : Type} (l : list A) :
  l <> [] -> Nat.ltb 0 (List.length l) = true.
Proof. destruct l; [congruence | reflexivity]. Qed.

Lemma convert_steps (p : ParsedQuery) :
  convertToRelationalAlgebra p =
  applyOrdering p (applyProjection p (beforeProjection p)).
Proof. reflexivity. Qed.

Lemma includes_In (l : list string) (x : string) :
  includes l x = true <-> In x l.
Proof.
  unfold includes. rewrite existsb_exists. split.
  - intros (y & Hy & E). apply string_eqb_eq in E. subst. assumption.
  - intros H. exists x. split; [assumption | apply string_eqb_refl].
Qed.

Lemma applyOrdering_inj (p : ParsedQuery) (x y : string) :
  applyOrdering p x = applyOrdering p y -> x = y.
Proof.
  unfold applyOrdering. destruct (Nat.ltb 0 (List.length (orderBy p))); [|auto].
  intros H. rewrite <- !append_assoc in H.
  remember (("τ[" ++ _) ++ "](") as pre in H.
  clear Heqpre. revert y H. induction pre as [|c pre IH]; simpl; intros y H.
  - revert y H. induction x as [|a x IHx]; intros [|b y] H; simpl in H;
      try reflexivity.
    + destruct y; discriminate.
    + destruct x; discriminate.
    + injection H as -> H. f_equal. auto.
  - injection H as H. auto.
Qed.

(** C7: the base of the rendered expression is the table itself when
    there is exactly one, and the parenthesised product of all tables
    otherwise; every later step wraps it; SELECT * FROM A, B gives (A × B). *)
Theorem C7_base_relation :
  (forall p, baseRelation p =
             match tables p with
             | [t] => t
             | ts => "(" ++ join " × " ts ++ ")"
             end) /\
  (forall p, convertToRelationalAlgebra p =
             applyOrdering p (applyProjection p (applyHaving p (applyGrouping p
               (applySelection p (fold_left applyJoin (joins p) (baseRelation p))))))) /\
  (forall p, joins p = [] -> conditions p = [] -> groupBy p = [] -> having p = [] ->
             columns p = ["*"] -> orderBy p = [] ->
             convertToRelationalAlgebra p = baseRelation p) /\
  parseSQL "SELECT * FROM A, B" =
    Some (mkParsedQuery "SELECT" ["A"; "B"] ["*"] [] [] [] [] []) /\
  convert "SELECT * FROM A, B" = Some "(A × B)".
Proof.
  split; [|split; [|split; [|split]]].
  - intros p. unfold baseRelation. destruct (tables p) as [|t [|t' l]]; reflexivity.
  - reflexivity.
  - intros [op ts cs conds js gb ob hv]. simpl. intros -> -> -> -> -> ->. reflexivity.
  - reflexivity.
  - reflexivity.
Qed.

Lemma C7_witness :
  convertToRelationalAlgebra (mkParsedQuery "SELECT" ["A"; "B"; "C"] ["*"] [] [] [] [] [])
  = "(A × B × C)".
Proof.
  exact (proj1 (proj2 (proj2 C7_base_relation))
           (mkParsedQuery "SELECT" ["A"; "B"; "C"] ["*"] [] [] [] [] [])
           eq_refl eq_refl eq_refl eq_refl eq_refl eq_refl).
Defined.

(** C2: the example query with a bare JOIN whose ON condition ends the
    text.  The lookahead of [joinRegex] asks for whitespace before every
    boundary, the end of the text included, and the text is trimmed: no
    join is found, and the expression has no join operator. *)
Theorem C2_join_at_end_of_text :
  parseSQL "SELECT e.Name, d.DepartmentName FROM EMPLOYEE e JOIN DEPARTMENT d ON e.DepartmentID = d.ID"
  = Some (mkParsedQuery "SELECT" ["EMPLOYEE"] ["Name"; "DepartmentName"]
            [] [] [] [] []) /\
  convert "SELECT e.Name, d.DepartmentName FROM EMPLOYEE e JOIN DEPARTMENT d ON e.DepartmentID = d.ID"
  = Some "π[Name, DepartmentName](EMPLOYEE)".
Proof. split; vm_compute; reflexivity. Qed.

(** the same join is found as soon as a clause follows it *)
Lemma join_before_where_is_found :
  convert "SELECT e.Name, d.DepartmentName FROM EMPLOYEE e JOIN DEPARTMENT d ON e.DepartmentID = d.ID WHERE e.Salary > 1"
  = Some "π[Name, DepartmentName](σ[e.Salary > 1]((EMPLOYEE ⋈[e.DepartmentID = d.ID] DEPARTMENT)))".
Proof. vm_compute. reflexivity. Qed.

(** C6: a LEFT JOIN written with two spaces between its words.  The
    extractor accepts it and stores the text of the keyword as the join
    type; the renderer compares the type with the spellings that have one
    space, finds none, and prints the symbol of the inner join. *)
Theorem C6_left_join_with_two_spaces :
  parseSQL "SELECT * FROM A LEFT  JOIN B ON A.x = B.x WHERE A.y = 1"
  = Some (mkParsedQuery "SELECT" ["A"] ["*"] ["A.y = 1"]
            [mkJoin "LEFT  JOIN" "B" "A.x = B.x"] [] [] []) /\
  convert "SELECT * FROM A LEFT  JOIN B ON A.x = B.x WHERE A.y = 1"
  = Some "σ[A.y = 1]((A ⋈[A.x = B.x] B))" /\
  convert "SELECT * FROM A LEFT JOIN B ON A.x = B.x WHERE A.y = 1"
  = Some "σ[A.y = 1]((A ⟕[A.x = B.x] B))".
Proof. repeat split; vm_compute; reflexivity. Qed.

(** ** Projection *)

Lemma applyProjection_cases (p : ParsedQuery) (acc : string) :
  (columns p <> [] /\ ~ In "*" (columns p) /\
   applyProjection p acc = "π[" ++ join ", " (columns p) ++ "](" ++ acc ++ ")")
  \/
  ((columns p = [] \/ In "*" (columns p)) /\ applyProjection p acc = acc).
Proof.
  unfold applyProjection.
  destruct (columns p) as [|c cs] eqn:Ec.
  - right. split; [left; reflexivity | reflexivity].
  - change (Nat.ltb 0 (List.length (c :: cs))) with true. rewrite andb_true_l.
    destruct (includes (c :: cs) "*") eqn:Ei; cbn [negb].
    + right. split; [right; apply includes_In; assumption | reflexivity].
    + left. split; [discriminate|]. split; [|reflexivity].
      intros H. apply includes_In in H. congruence.
Qed.

(** C5, as the code has it: the projection layer is emitted exactly when
    the column list is not empty and does not contain the wildcard, at
    any position; in the other case the accumulator is left as it is.
    SELECT * FROM EMPLOYEE renders as EMPLOYEE. *)
Theorem C5_projection_condition :
  (forall p, projected p <-> columns p <> [] /\ ~ In "*" (columns p)) /\
  (forall p, columns p = [] \/ In "*" (columns p) ->
             convertToRelationalAlgebra p = applyOrdering p (beforeProjection p)) /\
  parseSQL "SELECT * FROM EMPLOYEE" =
    Some (mkParsedQuery "SELECT" ["EMPLOYEE"] ["*"] [] [] [] [] []) /\
  convert "SELECT * FROM EMPLOYEE" = Some "EMPLOYEE".
Proof.
  split; [|split; [|split; reflexivity]].
  - intros p. unfold projected. rewrite convert_steps.
    destruct (applyProjection_cases p (beforeProjection p))
      as [(Hne & Hstar & ->) | (Hc & ->)].
    + split; [auto | reflexivity].
    + split.
      * intros H. apply applyOrdering_inj in H.
        apply (f_equal String.length) in H. simpl in H.
        rewrite !length_append in H. simpl in H.
        rewrite !length_append in H. simpl in H. lia.
      * intros (Hne & Hstar). destruct Hc; contradiction.
  - intros p Hc. rewrite convert_steps.
    destruct (applyProjection_cases p (beforeProjection p))
      as [(Hne & Hstar & _) | (_ & ->)]; [|reflexivity].
    destruct Hc; contradiction.
Qed.

Lemma C5_witness :
  convertToRelationalAlgebra (mkParsedQuery "SELECT" ["T"] ["a"; "*"] [] [] [] [] [])
  = "T".
Proof.
  refine (proj1 (proj2 C5_projection_condition)
            (mkParsedQuery "SELECT" ["T"] ["a"; "*"] [] [] [] [] []) _).
  right. simpl. right. left. reflexivity.
Defined.

(** C5 as the specification words it fails on SELECT a, * FROM T: the
    column list has two elements, so it is neither empty nor the list of
    the wildcard alone, and no projection is emitted. *)
Lemma C5_counterexample :
  let p := mkParsedQuery "SELECT" ["T"] ["a"; "*"] [] [] [] [] [] in
  parseSQL "SELECT a, * FROM T" = Some p /\
  convertToRelationalAlgebra p = "T" /\
  ~ (projected p <-> columns p <> [] /\ columns p <> ["*"]).
Proof.
  intros p. split; [reflexivity|]. split; [reflexivity|].
  intros [_ H]. assert (Hp : projected p) by (apply H; split; discriminate).
  unfold projected in Hp. discriminate Hp.
Qed.

(** ** Operator order *)

Lemma convert_all_clauses (p : ParsedQuery) :
  columns p <> [] -> conditions p <> [] -> groupBy p <> [] ->
  having p <> [] -> orderBy p <> [] ->
  convertToRelationalAlgebra p =
  if includes (columns p) "*" then nestedWithoutProjection p
  else nestedWithProjection p.
Proof.
  intros Hc Hw Hg Hh Ho.
  unfold convertToRelationalAlgebra, applyOrdering, applyProjection, applyHaving,
    applyGrouping, applySelection, nestedWithoutProjection, nestedWithProjection,
    grouped, orderText, joined.
  rewrite !ltb_length_nonempty by assumption.
  destruct (includes (columns p) "*"); cbv beta iota zeta;
    rewrite ?andb_true_l, ?andb_false_r; cbn [negb andb]; cbv iota;
    rewrite !append_assoc; reflexivity.
Qed.

(** C1, as the code has it: when extraction has captured a WHERE, a GROUP
    BY, a HAVING and an ORDER BY text, whatever their order in the query,
    the expression is τ(π(σ(γ(σ(joins))))) with the joins folded onto the
    base relation innermost, and the π layer is left out when the
    column list contains the wildcard. *)
Theorem C1_operator_order (q : string) (p : ParsedQuery) :
  parseSQL q = Some p ->
  conditions p <> [] -> groupBy p <> [] -> having p <> [] -> orderBy p <> [] ->
  convertToRelationalAlgebra p =
  if includes (columns p) "*" then nestedWithoutProjection p
  else nestedWithProjection p.
Proof.
  intros H. apply convert_all_clauses.
  destruct (parseSQL_Some_inv _ _ H) as (cs & ts & conds & js & gb & ob & hv & _ & _ & _ & _ & ->).
  simpl. pose proof (parseColumns_length cs) as Hl.
  destruct (parseColumns cs); [simpl in Hl; lia | discriminate].
Qed.

Lemma C1_witness :
  convertToRelationalAlgebra
    (mkParsedQuery "SELECT" ["T"] ["x"] ["a = 1"]
       [mkJoin "JOIN" "U" "T.k = U.k"] ["b"]
       [mkOrderItem "d" "DESC"; mkOrderItem "e" "ASC"] ["c > 1"])
  = "τ[d DESC, e ASC](π[x](σ[c > 1](γ[b](σ[a = 1]((T ⋈[T.k = U.k] U))))))".
Proof.
  refine (C1_operator_order
           "SELECT x FROM T JOIN U ON T.k = U.k WHERE a = 1 GROUP BY b HAVING c > 1 ORDER BY d desc, e"
           _ _ _ _ _ _); [vm_compute; reflexivity | discriminate ..].
Defined.

(** the nesting does not follow the order of the clauses in the text *)
Lemma clauses_in_another_order :
  convert "SELECT x FROM T ORDER BY d HAVING c > 1 GROUP BY b WHERE a = 1"
  = Some "τ[d ASC](π[x](σ[c > 1 GROUP BY b WHERE a = 1](γ[b WHERE a = 1](σ[a = 1](T)))))".
Proof. vm_compute. reflexivity. Qed.

(** C1 as the specification words it fails on a query that selects the
    wildcard: all four clauses are captured and no π layer is printed. *)
Lemma C1_counterexample :
  let p := mkParsedQuery "SELECT" ["T"] ["*"] ["a = 1"] [] ["b"]
             [mkOrderItem "d" "ASC"] ["c > 1"] in
  parseSQL "SELECT * FROM T WHERE a = 1 GROUP BY b HAVING c > 1 ORDER BY d" = Some p /\
  conditions p <> [] /\ groupBy p <> [] /\ having p <> [] /\ orderBy p <> [] /\
  convertToRelationalAlgebra p = "τ[d ASC](σ[c > 1](γ[b](σ[a = 1](T))))" /\
  convertToRelationalAlgebra p <> nestedWithProjection p.
Proof.
  intros p. split; [vm_compute; reflexivity|].
  repeat (split; [discriminate|]). split; [reflexivity | discriminate].
Qed.

(** ** ORDER BY items *)

Lemma trimStart_blank (pad s : string) :
  blank pad = true -> trimStart (pad ++ s) = trimStart s.
Proof.
  induction pad as [|c pad IH]; intros H; [reflexivity|].
  simpl in H. apply andb_true_iff in H. destruct H as [Hc Hp].
  simpl. rewrite Hc. auto.
Qed.

Lemma token_inv (s : string) :
  token s = true ->
  exists c r, s = String c r /\ is_space c = false /\
              all_chars (fun c => negb (is_space c)) s = true.
Proof.
  unfold token. intros H. apply andb_true_iff in H. destruct H as [Hne Hall].
  destruct s as [|c r]; [discriminate|].
  exists c, r. split; [reflexivity|]. split; [|assumption].
  simpl in Hall. apply andb_true_iff in Hall. destruct Hall as [Hc _].
  apply negb_true_iff. assumption.
Qed.

Lemma trimStart_token (tok s : string) :
  token tok = true -> trimStart (tok ++ s) = tok ++ s.
Proof.
  intros H. destruct (token_inv _ H) as (c & r & -> & Hc & _).
  simpl. rewrite Hc. reflexivity.
Qed.

Lemma trimEnd_blank (pad : string) : blank pad = true -> trimEnd pad = "".
Proof.
  induction pad as [|c pad IH]; intros H; [reflexivity|].
  simpl in H. apply andb_true_iff in H. destruct H as [Hc Hp].
  simpl. rewrite (IH Hp), Hc. reflexivity.
Qed.


Lemma after_token_trimEnd (s : string) : after_token s -> after_token (trimEnd s).
Proof.
  intros [->|(c & r & -> & Hc)]; [left; reflexivity|].
  simpl. destruct (is_space c && (trimEnd r =? "")).
  - left. reflexivity.
  - right. exists c, (trimEnd r). split; [reflexivity | assumption].
Qed.

Lemma split_ws_after_token (s : string) :
  after_token s -> exists fs, split_ws_from false s = "" :: fs.
Proof.
  intros [->|(c & r & -> & Hc)]; simpl.
  - exists []. reflexivity.
  - rewrite Hc. eexists. reflexivity.
Qed.

Lemma split_ws_nonspace_prefix (w s : string) :
  all_chars (fun c => negb (is_space c)) w = true ->
  split_ws_from false (w ++ s) =
  match split_ws_from false s with
  | f :: fs => (w ++ f) :: fs
  | [] => [w]
  end.
Proof.
  induction w as [|c w IH]; intros H.
  - simpl. destruct (split_ws_from false s) eqn:E; [|reflexivity].
    pose proof (split_ws_from_length false s) as Hl. rewrite E in Hl. simpl in Hl. lia.
  - simpl in H. apply andb_true_iff in H. destruct H as [Hc Hw].
    apply negb_true_iff in Hc. simpl. rewrite Hc, (IH Hw).
    destruct (split_ws_from false s); reflexivity.
Qed.




(** the fields of [token, rest] *)
Lemma split_ws_token (tok s : string) :
  token tok = true -> after_token s ->
  exists fs, split_ws_from false (tok ++ s) = tok :: fs /\
             split_ws_from false s = "" :: fs.
Proof.
  intros H Hs. destruct (token_inv _ H) as (_ & _ & _ & _ & Hall).
  destruct (split_ws_after_token _ Hs) as (fs & E).
  exists fs. rewrite split_ws_nonspace_prefix by assumption.
  rewrite E, append_nil_r. split; reflexivity.
Qed.





(** ** The terminating semicolon *)

Lemma lastChar_cons (c : char) (s : string) :
  s <> "" -> lastChar (String c s) = lastChar s.
Proof. destruct s; [congruence | reflexivity]. Qed.

Lemma lastChar_Some_nonempty (s : string) (c : char) :
  lastChar s = Some c -> s <> "".
Proof. destruct s; discriminate. Qed.

Lemma lastChar_append (a b : string) : b <> "" -> lastChar (a ++ b) = lastChar b.
Proof.
  intros Hb. induction a as [|c a IH]; [reflexivity|].
  change (String c a ++ b) with (String c (a ++ b)).
  rewrite lastChar_cons; [assumption|].
  destruct a; simpl; [assumption | discriminate].
Qed.

Lemma lastChar_trimEnd (s : string) :
  lastChar s = Some ";"%cu -> lastChar (trimEnd s) = Some ";"%cu.
Proof.
  induction s as [|c s IH]; intros H; [discriminate|].
  destruct s as [|d s].
  - simpl in H. injection H as ->. reflexivity.
  - specialize (IH H). pose proof (lastChar_Some_nonempty _ _ IH) as Hne.
    change (trimEnd (String c (String d s)))
      with (if is_space c && (trimEnd (String d s) =? "") then ""
            else String c (trimEnd (String d s))).
    destruct (trimEnd (String d s)) eqn:E; [congruence|].
    rewrite andb_false_r. rewrite lastChar_cons by discriminate. assumption.
Qed.

Lemma lastChar_trimStart (s : string) :
  lastChar s = Some ";"%cu -> lastChar (trimStart s) = Some ";"%cu.
Proof.
  induction s as [|c s IH]; intros H; [discriminate|].
  simpl. destruct (is_space c) eqn:Ec; [|assumption].
  destruct s as [|d s].
  - simpl in H. injection H as ->. discriminate.
  - apply IH. assumption.
Qed.

Lemma lastChar_trim (s : string) :
  lastChar s = Some ";"%cu -> lastChar (trim s) = Some ";"%cu.
Proof. intros H. apply lastChar_trimEnd, lastChar_trimStart, H. Qed.

Lemma matches_plain (r : re) (s s' : string) (c c' : captures) :
  matches r s c s' c' -> plain r = true -> c' = c.
Proof.
  induction 1; simpl; intros Hp; try reflexivity; try discriminate; auto.
  apply andb_true_iff in Hp. destruct Hp as [Hp1 Hp2].
  rewrite (IHmatches2 Hp2). auto.
  - apply andb_true_iff in Hp. tauto.
  - apply andb_true_iff in Hp. tauto.
Qed.

Lemma matches_closes_with_word (r : re) (s s' : string) (c c' : captures) :
  matches r s c s' c' -> closes_with_word r = true -> s' = "" ->
  s <> "" /\ lastChar s <> Some ";"%cu.
Proof.
  induction 1; simpl; intros Hw He; try discriminate.
  - subst s'. destruct (lit_match_inv _ _ _ H) as (v & -> & Hv).
    rewrite append_nil_r.
    destruct (lastChar w) as [x|] eqn:Ex; [|discriminate].
    destruct (lit_match_last _ _ _ Hv Ex) as (y & Ey & Exy).
    split; [eapply lastChar_Some_nonempty; eassumption|].
    rewrite Ey. intros Hy. injection Hy as ->.
    apply word_is_ascii in Hw as Hx.
    destruct (canonicalize_ascii_inv _ _ Hx Exy) as (_ & Hu).
    apply (word_not_semicolon _ Hw). symmetry. exact Hu.
  - destruct (IHmatches2 Hw He) as (Hne & Hl).
    destruct (matches_suffix _ _ _ _ _ H) as (w & ->).
    rewrite lastChar_append by assumption. split; [|assumption].
    destruct w; [assumption | discriminate].
  - apply andb_true_iff in Hw. tauto.
  - apply andb_true_iff in Hw. tauto.
Qed.

Lemma matches_boundary (r : re) (s : string) (c c' : captures) :
  boundary r = true -> matches r s c "" c' ->
  s = "" \/ lastChar s <> Some ";"%cu.
Proof.
  revert c c'. induction r; simpl; intros c c' Hb Hm;
    try (right; eapply matches_closes_with_word; eauto; fail);
    try discriminate.
  - apply andb_true_iff in Hb. destruct Hb as [Hb1 Hb2].
    inversion Hm; subst; eauto.
  - inversion Hm; subst. left; reflexivity.
Qed.

(** the tail shared by the clause patterns: the lazy capture and the
    boundary; when the match runs to the end of a text that ends with a
    semicolon, the capture ends with it *)
Lemma capture_runs_to_end (B : re) (s : string) (c c' : captures) :
  plain B = true -> boundary B = true ->
  (s = "" \/ lastChar s = Some ";"%cu) ->
  matches (Cat (Grp 1 (Plus false is_dot)) B) s c "" c' ->
  exists v, capture 1 c' = Some v /\ lastChar v = Some ";"%cu.
Proof.
  intros Hp Hb Hs Hm.
  inversion Hm as [| |r1 r2 s0 c0 s3 c3 s4 c4 Hg HB| | | | | | | | |]; subst.
  inversion Hg as [| | | | | | | | |n r s0 c0 s1 c1 Hplus| |]; subst.
  rewrite (matches_plain _ _ _ _ _ HB Hp). simpl.
  exists (consumed s s3). split; [reflexivity|].
  destruct (matches_suffix _ _ _ _ _ Hplus) as (w & ->).
  rewrite consumed_append.
  assert (Hw : w <> "").
  { unfold Plus in Hplus.
    inversion Hplus as [| |r1 r2 s0 c0 s1 c1' s2 c2 Hc Hr| | | | | | | | |]; subst.
    inversion Hc; subst. destruct w; [|discriminate].
    destruct (matches_suffix _ _ _ _ _ Hr) as (w' & Hw').
    simpl in *. apply (f_equal String.length) in Hw'. subst s3.
    simpl in Hw'. rewrite length_append in Hw'. simpl in Hw'. lia. }
  destruct Hs as [Hs|Hs]; [destruct w; [congruence | discriminate]|].
  destruct s3 as [|a s3].
  - rewrite append_nil_r in Hs. assumption.
  - rewrite lastChar_append in Hs by discriminate.
    destruct (matches_boundary _ _ _ _ Hb HB) as [Hl|Hl];
      [discriminate | contradiction].
Qed.

Lemma cat_tail (r1 r2 : re) (s : string) (c c' : captures) :
  matches (Cat r1 r2) s c "" c' ->
  (s = "" \/ lastChar s = Some ";"%cu) ->
  exists s1 c1, matches r2 s1 c1 "" c' /\
                (s1 = "" \/ lastChar s1 = Some ";"%cu).
Proof.
  intros Hm Hs.
  inversion Hm as [| |r1' r2' s0 c0 s1 c1 s2 c2 H1 H2| | | | | | | | |]; subst.
  exists s1, c1. split; [assumption|].
  destruct s1 as [|a s1]; [left; reflexivity|]. right.
  destruct (matches_suffix _ _ _ _ _ H1) as (w & ->).
  destruct Hs as [Hs|Hs].
  - destruct w; discriminate.
  - rewrite lastChar_append in Hs by discriminate. assumption.
Qed.

Lemma search_reaches_end (r : re) (t : string) (m : MatchResult) :
  search r t = Some m -> reachesEnd m t -> lastChar t = Some ";"%cu ->
  exists s, matches r s [] "" (groups m) /\
            (s = "" \/ lastChar s = Some ";"%cu).
Proof.
  intros Hs He Ht.
  destruct (search_from_inv _ _ _ _ Hs) as (pre & s' & Hpre & Hi & Hm).
  unfold reachesEnd in He. rewrite Hi in He.
  apply (f_equal String.length) in Hpre as Hlen.
  rewrite !length_append in Hlen.
  assert (s' = "") as -> by (destruct s'; [reflexivity | simpl in *; lia]).
  exists (whole m ++ ""). split; [assumption|].
  destruct (whole m ++ "") eqn:E; [left; reflexivity|]. right.
  rewrite Hpre, lastChar_append in Ht by discriminate. assumption.
Qed.

Lemma where_capture_to_end (t : string) (m : MatchResult) :
  search whereRe t = Some m -> reachesEnd m t -> lastChar t = Some ";"%cu ->
  exists v, group m 1 = Some v /\ lastChar v = Some ";"%cu.
Proof.
  intros Hs He Ht.
  destruct (search_reaches_end _ _ _ Hs He Ht) as (s & Hm & Hl).
  unfold whereRe in Hm.
  destruct (cat_tail _ _ _ _ _ Hm Hl) as (s1 & c1 & Hm1 & Hl1).
  destruct (cat_tail _ _ _ _ _ Hm1 Hl1) as (s2 & c2 & Hm2 & Hl2).
  eapply capture_runs_to_end; [| |exact Hl2|exact Hm2]; reflexivity.
Qed.

Lemma having_capture_to_end (t : string) (m : MatchResult) :
  search havingRe t = Some m -> reachesEnd m t -> lastChar t = Some ";"%cu ->
  exists v, group m 1 = Some v /\ lastChar v = Some ";"%cu.
Proof.
  intros Hs He Ht.
  destruct (search_reaches_end _ _ _ Hs He Ht) as (s & Hm & Hl).
  unfold havingRe in Hm.
  destruct (cat_tail _ _ _ _ _ Hm Hl) as (s1 & c1 & Hm1 & Hl1).
  destruct (cat_tail _ _ _ _ _ Hm1 Hl1) as (s2 & c2 & Hm2 & Hl2).
  eapply capture_runs_to_end; [| |exact Hl2|exact Hm2]; reflexivity.
Qed.

Lemma groupBy_capture_to_end (t : string) (m : MatchResult) :
  search groupByRe t = Some m -> reachesEnd m t -> lastChar t = Some ";"%cu ->
  exists v, group m 1 = Some v /\ lastChar v = Some ";"%cu.
Proof.
  intros Hs He Ht.
  destruct (search_reaches_end _ _ _ Hs He Ht) as (s & Hm & Hl).
  unfold groupByRe in Hm.
  destruct (cat_tail _ _ _ _ _ Hm Hl) as (s1 & c1 & Hm1 & Hl1).
  destruct (cat_tail _ _ _ _ _ Hm1 Hl1) as (s2 & c2 & Hm2 & Hl2).
  destruct (cat_tail _ _ _ _ _ Hm2 Hl2) as (s3 & c3 & Hm3 & Hl3).
  destruct (cat_tail _ _ _ _ _ Hm3 Hl3) as (s4 & c4 & Hm4 & Hl4).
  eapply capture_runs_to_end; [| |exact Hl4|exact Hm4]; reflexivity.
Qed.

(** the last field of a text that ends with a semicolon ends with it *)
Lemma lastChar_split_on (v : string) :
  lastChar v = Some ";"%cu ->
  lastChar (last (split_on "," v) "") = Some ";"%cu.
Proof.
  induction v as [|c v IH]; intros H; [discriminate|].
  destruct v as [|d v].
  - simpl in H. injection H as ->. reflexivity.
  - specialize (IH H).
    change (split_on "," (String c (String d v)))
      with (if Char.eqb c ","
            then "" :: split_on "," (String d v)
            else match split_on "," (String d v) with
                 | f :: fs => String c f :: fs
                 | [] => [String c ""]
                 end).
    destruct (split_on "," (String d v)) as [|f fs] eqn:E; [discriminate|].
    destruct (Char.eqb c ","); [exact IH|].
    destruct fs as [|g fs]; [|exact IH].
    cbn [last] in IH |- *. rewrite lastChar_cons; [assumption|].
    eapply lastChar_Some_nonempty; eassumption.
Qed.

Lemma last_map_trim (l : list string) :
  l <> [] -> last (map trim l) "" = trim (last l "").
Proof.
  induction l as [|x l IH]; intros H; [congruence|].
  destruct l as [|y l]; [reflexivity|].
  change (last (map trim (x :: y :: l)) "") with (last (map trim (y :: l)) "").
  rewrite IH by discriminate. reflexivity.
Qed.

Lemma lastChar_join (sep : string) (l : list string) (c : char) :
  lastChar (last l "") = Some c -> lastChar (join sep l) = Some c.
Proof.
  induction l as [|x l IH]; intros H; [discriminate|].
  destruct l as [|y l]; [exact H|].
  change (join sep (x :: y :: l)) with (x ++ sep ++ join sep (y :: l)).
  specialize (IH H). pose proof (lastChar_Some_nonempty _ _ IH) as Hne.
  rewrite <- append_assoc. rewrite lastChar_append; assumption.
Qed.

(** ** What the later steps keep *)

Lemma contains_wrap (a b s x : string) : contains s x -> contains (a ++ s ++ b) x.
Proof.
  intros (pre & post & ->). exists (a ++ pre), (post ++ b).
  rewrite !append_assoc. reflexivity.
Qed.

Lemma applyGrouping_contains (p : ParsedQuery) (acc x : string) :
  contains acc x -> contains (applyGrouping p acc) x.
Proof.
  intros H. unfold applyGrouping. destruct (Nat.ltb 0 _); [|assumption].
  rewrite <- !append_assoc. rewrite append_assoc.
  apply contains_wrap. assumption.
Qed.

Lemma applyHaving_contains (p : ParsedQuery) (acc x : string) :
  contains acc x -> contains (applyHaving p acc) x.
Proof.
  intros H. unfold applyHaving. destruct (Nat.ltb 0 _); [|assumption].
  rewrite <- !append_assoc. rewrite append_assoc.
  apply contains_wrap. assumption.
Qed.

Lemma applyProjection_contains (p : ParsedQuery) (acc x : string) :
  contains acc x -> contains (applyProjection p acc) x.
Proof.
  intros H. unfold applyProjection. destruct (_ && _); [|assumption].
  rewrite <- !append_assoc. rewrite append_assoc.
  apply contains_wrap. assumption.
Qed.

Lemma applyOrdering_contains (p : ParsedQuery) (acc x : string) :
  contains acc x -> contains (applyOrdering p acc) x.
Proof.
  intros H. unfold applyOrdering. destruct (Nat.ltb 0 _); [|assumption].
  rewrite <- !append_assoc. rewrite append_assoc.
  apply contains_wrap. assumption.
Qed.

(** ** The ORDER BY capture stops at a semicolon *)

(** a lazy repetition stops at the first position where the rest of the
    pattern matches *)
Lemma rep_loop_lazy_first (p : char -> bool) (k : string -> option state)
    (s : string) (x : state) :
  rep_loop false p k s = Some x ->
  exists w s', s = w ++ s' /\ k s' = Some x /\
    (forall w1 w2, w = w1 ++ w2 -> w2 <> "" -> k (w2 ++ s') = None).
Proof.
  induction s as [|a s IH]; simpl; intros H.
  - exists "", "". split; [reflexivity|]. split.
    + destruct (k ""); [assumption | discriminate].
    + intros w1 w2 Hw Hne. destruct w1; destruct w2; simpl in Hw; congruence.
  - destruct (k (String a s)) eqn:Ek.
    + exists "", (String a s). split; [reflexivity|]. split; [congruence|].
      intros w1 w2 Hw Hne. destruct w1; destruct w2; simpl in Hw; congruence.
    + destruct (p a); [|discriminate].
      destruct (IH H) as (w & s' & -> & Hk & Hfirst).
      exists (String a w), s'. split; [reflexivity|]. split; [assumption|].
      intros w1 w2 Hw Hne. destruct w1 as [|b w1]; simpl in Hw.
      * subst w2. exact Ek.
      * injection Hw as _ Hw. eapply Hfirst; eassumption.
Qed.

Lemma no_semicolon_before_stop (k : string -> option state) (w s' : string) :
  (forall rest, k (String ";" rest) <> None) ->
  (forall w1 w2, w = w1 ++ w2 -> w2 <> "" -> k (w2 ++ s') = None) ->
  all_chars not_semicolon w = true.
Proof.
  intros Hk. induction w as [|b w IH]; intros Hfirst; [reflexivity|].
  simpl. apply andb_true_iff. split.
  - unfold not_semicolon. apply negb_true_iff, N.eqb_neq. intros ->.
    apply (Hk (w ++ s')). apply (Hfirst "" (String ";" w)); [reflexivity | discriminate].
  - apply IH. intros w1 w2 Hw Hne.
    apply (Hfirst (String b w1) w2); [simpl; congruence | assumption].
Qed.

Lemma run_cat (r1 r2 : re) (s : string) (c : captures) (k : cont) :
  run (Cat r1 r2) s c k = run r1 s c (fun s1 c1 => run r2 s1 c1 k).
Proof. reflexivity. Qed.

Lemma run_plain_prefix (r1 r2 : re) (s : string) (c : captures) (k : cont)
    (x : state) :
  plain r1 = true ->
  run (Cat r1 r2) s c k = Some x ->
  exists s1, run r2 s1 c k = Some x.
Proof.
  intros Hp H. rewrite run_cat in H.
  destruct (run_sound _ _ _ _ _ H) as (s1 & c1 & Hm & Hk).
  rewrite (matches_plain _ _ _ _ _ Hm Hp) in Hk. exists s1. assumption.
Qed.

Lemma run_capture_tail (B : re) (s : string) (c : captures) (k : cont) :
  run (Cat (Grp 1 (Plus false is_dot)) B) s c k =
  match s with
  | String a s1 =>
      if is_dot a
      then rep_loop false is_dot
             (fun s' => run B s' ((1, consumed s s') :: c) k) s1
      else None
  | "" => None
  end.
Proof. destruct s; reflexivity. Qed.

Lemma orderBy_capture_shape (s s' : string) (c : captures) :
  exec_here orderByRe s = Some (s', c) ->
  exists a w, capture 1 c = Some (String a w) /\ all_chars not_semicolon w = true.
Proof.
  unfold exec_here, orderByRe. intros H.
  apply run_plain_prefix in H; [|reflexivity]. destruct H as (s1 & H).
  apply run_plain_prefix in H; [|reflexivity]. destruct H as (s2 & H).
  apply run_plain_prefix in H; [|reflexivity]. destruct H as (s3 & H).
  apply run_plain_prefix in H; [|reflexivity]. destruct H as (s4 & H).
  rewrite run_capture_tail in H. destruct s4 as [|a s5]; [discriminate|].
  destruct (is_dot a); [|discriminate].
  destruct (rep_loop_lazy_first _ _ _ _ H) as (w & s6 & -> & Hk & Hfirst).
  exists a, w. split.
  - change (String a (w ++ s6)) with (String a w ++ s6) in Hk.
    rewrite consumed_append in Hk.
    destruct (run_sound _ _ _ _ _ Hk) as (s7 & c7 & Hm & Hk').
    injection Hk' as _ <-.
    rewrite (matches_plain _ _ _ _ _ Hm eq_refl). reflexivity.
  - apply (no_semicolon_before_stop
             (fun s' => run (Alt (Lit ";") Eos) s'
                          [(1, consumed (String a (w ++ s6)) s')]
                          (fun s0 c0 => Some (s0, c0))) w s6); [|exact Hfirst].
    intros rest. cbn. discriminate.
Qed.

Lemma search_from_exec (r : re) (t : string) :
  forall i m, search_from r i t = Some m ->
    exists s s', exec_here r s = Some (s', groups m).
Proof.
  induction t as [|a t IH]; intros i m H; simpl in H.
  - destruct (exec_here r "") as [[s' c]|] eqn:E; [|discriminate].
    injection H as <-. exists "", s'. assumption.
  - destruct (exec_here r (String a t)) as [[s' c]|] eqn:E.
    + injection H as <-. exists (String a t), s'. assumption.
    + eapply IH; eassumption.
Qed.

(** In a text that ends with a semicolon, a WHERE, GROUP BY or HAVING
    capture that runs to the end of the text (no later clause cuts it)
    ends with that semicolon, and the semicolon is printed inside the
    brackets of the σ or γ layer; only the ORDER BY pattern has the
    semicolon as a boundary: its capture has no semicolon after its
    first character. *)
Lemma captured_clause_keeps_semicolon (q : string) (p : ParsedQuery) :
  parseSQL q = Some p ->
  lastChar (trim q) = Some ";"%cu ->
  (forall m, search whereRe (trim q) = Some m -> reachesEnd m (trim q) ->
     exists w, conditions p = [w] /\ lastChar w = Some ";"%cu /\
               contains (convertToRelationalAlgebra p) ("σ[" ++ w ++ "]")) /\
  (forall m, search groupByRe (trim q) = Some m -> reachesEnd m (trim q) ->
     lastChar (join ", " (groupBy p)) = Some ";"%cu /\
     contains (convertToRelationalAlgebra p) ("γ[" ++ join ", " (groupBy p) ++ "]")) /\
  (forall m, search havingRe (trim q) = Some m -> reachesEnd m (trim q) ->
     exists h, having p = [h] /\ lastChar h = Some ";"%cu /\
               contains (convertToRelationalAlgebra p) ("σ[" ++ h ++ "]")) /\
  (forall m, search orderByRe (trim q) = Some m ->
     exists a w, group m 1 = Some (String a w) /\
                 all_chars not_semicolon w = true /\
                 orderBy p = map parseOrderItem (split_on "," (String a w))).
Proof.
  intros H Hq.
  destruct (parseSQL_Some_inv _ _ H) as
    (cs & ts & conds & js & gb & ob & hv & Hc & Hg & Ho & Hh & ->).
  unfold convertToRelationalAlgebra. cbv zeta.
  split; [|split; [|split]].
  - intros m Hm He.
    destruct (where_capture_to_end _ _ Hm He Hq) as (v & Hv & Hl).
    apply clause_value in Hc; [|reflexivity]. rewrite Hm in Hc.
    destruct Hc as (v' & Hv' & ->). rewrite Hv in Hv'. injection Hv' as <-.
    exists (trim v). split; [reflexivity|]. split; [apply lastChar_trim; assumption|].
    apply applyOrdering_contains, applyProjection_contains, applyHaving_contains,
      applyGrouping_contains.
    unfold applySelection. simpl.
    exists "", ("(" ++ fold_left applyJoin js
                  (baseRelation
                     (mkParsedQuery "SELECT" (map parseTable (split_on "," ts))
                        (parseColumns cs) [trim v] js gb ob hv)) ++ ")").
    simpl. rewrite !append_assoc. reflexivity.
  - intros m Hm He.
    destruct (groupBy_capture_to_end _ _ Hm He Hq) as (v & Hv & Hl).
    apply clause_value in Hg; [|reflexivity]. rewrite Hm in Hg.
    destruct Hg as (v' & Hv' & ->). rewrite Hv in Hv'. injection Hv' as <-.
    assert (Hne : map trim (split_on "," v) <> []).
    { pose proof (split_on_length "," v) as Hlen.
      destruct (split_on "," v); [simpl in Hlen; lia | discriminate]. }
    split.
    + cbn [groupBy]. apply lastChar_join. rewrite last_map_trim.
      * apply lastChar_trim, lastChar_split_on. assumption.
      * intros E. rewrite E in Hne. contradiction.
    + apply applyOrdering_contains, applyProjection_contains, applyHaving_contains.
      unfold applyGrouping. cbn [groupBy].
      rewrite ltb_length_nonempty by assumption.
      eexists "", _. simpl. rewrite !append_assoc. reflexivity.
  - intros m Hm He.
    destruct (having_capture_to_end _ _ Hm He Hq) as (v & Hv & Hl).
    apply clause_value in Hh; [|reflexivity]. rewrite Hm in Hh.
    destruct Hh as (v' & Hv' & ->). rewrite Hv in Hv'. injection Hv' as <-.
    exists (trim v). split; [reflexivity|]. split; [apply lastChar_trim; assumption|].
    apply applyOrdering_contains, applyProjection_contains.
    unfold applyHaving. simpl.
    eexists "", _. simpl. rewrite !append_assoc. reflexivity.
  - intros m Hm.
    destruct (search_from_exec _ _ _ _ Hm) as (s & s' & He).
    destruct (orderBy_capture_shape _ _ _ He) as (a & w & Hcap & Hw).
    exists a, w. split; [exact Hcap|]. split; [assumption|].
    apply clause_value in Ho; [|reflexivity]. rewrite Hm in Ho.
    destruct Ho as (v' & Hv' & ->). unfold group in Hv'. rewrite Hcap in Hv'.
    injection Hv' as <-. reflexivity.
Qed.

(** C9: the semicolon that ends the text is not always printed.  A
    last clause written on two lines is not captured at all ([.] does not
    match the line terminator, nor [$] the end of the first line), so
    neither its text nor the semicolon reaches the output; written on
    one line, the same clause is printed with the semicolon inside the
    brackets. *)
Theorem C9_semicolon_after_line_break :
  (parseSQL ("SELECT x FROM T WHERE a = 1" ++ LF ++ "AND b = 2;")
     = Some (mkParsedQuery "SELECT" ["T"] ["x"] [] [] [] [] []) /\
   convert ("SELECT x FROM T WHERE a = 1" ++ LF ++ "AND b = 2;")
     = Some "π[x](T)" /\
   convert "SELECT x FROM T WHERE a = 1 AND b = 2;"
     = Some "π[x](σ[a = 1 AND b = 2;](T))") /\
  (convert ("SELECT x FROM T GROUP BY a," ++ LF ++ "b;") = Some "π[x](T)" /\
   convert "SELECT x FROM T GROUP BY a, b;" = Some "π[x](γ[a, b;](T))") /\
  (convert ("SELECT x FROM T GROUP BY a HAVING c > 1" ++ LF ++ "AND d > 2;")
     = Some "π[x](γ[a](T))" /\
   convert "SELECT x FROM T GROUP BY a HAVING c > 1 AND d > 2;"
     = Some "π[x](σ[c > 1 AND d > 2;](γ[a](T)))").
Proof. repeat split; vm_compute; reflexivity. Qed.

(** the semicolon inside σ and γ, and outside τ *)
Lemma semicolon_examples :
  convert "SELECT x FROM T WHERE a = 1;" = Some "π[x](σ[a = 1;](T))" /\
  convert "SELECT x FROM T GROUP BY a, b;" = Some "π[x](γ[a, b;](T))" /\
  convert "SELECT x FROM T GROUP BY a HAVING c > 1;"
    = Some "π[x](σ[c > 1;](γ[a](T)))" /\
  convert "SELECT x FROM T ORDER BY a;" = Some "τ[a ASC](π[x](T))".
Proof. repeat split; vm_compute; reflexivity. Qed.

(** * Further properties of the code *)

(** ** Whitespace around the query *)

Lemma trimEnd_blank_suffix (s pad : string) :
  blank pad = true -> trimEnd (s ++ pad) = trimEnd s.
Proof.
  intros H. induction s as [|c s IH]; simpl.
  - apply trimEnd_blank. assumption.
  - rewrite IH. reflexivity.
Qed.

Lemma trim_blank_suffix (q pad : string) :
  blank pad = true -> trim (q ++ pad) = trim q.
Proof.
  intros H. unfold trim. induction q as [|c q IH].
  - simpl. rewrite <- (append_nil_r pad), trimStart_blank by assumption. reflexivity.
  - simpl. destruct (is_space c); [exact IH|].
    change (String c (q ++ pad)) with (String c q ++ pad).
    apply trimEnd_blank_suffix. assumption.
Qed.

Lemma trim_padding (pad q pad' : string) :
  blank pad = true -> blank pad' = true -> trim (pad ++ q ++ pad') = trim q.
Proof.
  intros H H'. unfold trim. rewrite trimStart_blank by assumption.
  apply trim_blank_suffix. assumption.
Qed.

(** X1: whitespace before and after the query changes neither what
    parseSQL extracts nor what is rendered. *)
Theorem parseSQL_ignores_padding (pad q pad' : string) :
  blank pad = true -> blank pad' = true ->
  parseSQL (pad ++ q ++ pad') = parseSQL q /\
  convert (pad ++ q ++ pad') = convert q.
Proof.
  intros H H'.
  assert (Hp : parseSQL (pad ++ q ++ pad') = parseSQL q).
  { unfold parseSQL. cbv zeta. rewrite trim_padding by assumption. reflexivity. }
  split; [assumption|]. unfold convert. rewrite Hp. reflexivity.
Qed.

Lemma parseSQL_ignores_padding_witness :
  parseSQL ("  " ++ "select a from t" ++ " ") = parseSQL "select a from t" /\
  convert ("  " ++ "select a from t" ++ " ") = convert "select a from t".
Proof.
  apply parseSQL_ignores_padding; reflexivity.
Defined.

(** ** Aliases and qualifiers *)

(** X2: of a FROM item, the first token is the table; whitespace before
    it and everything after it (an alias) is dropped. *)
Theorem parseTable_drops_alias (pad name rest : string) :
  blank pad = true -> token name = true -> after_token rest ->
  parseTable (pad ++ name ++ rest) = name.
Proof.
  intros Hpad Hname Hrest.
  destruct (token_inv _ Hname) as (_ & _ & _ & _ & Hall).
  assert (Htrim : trim (pad ++ name ++ rest) = name ++ trimEnd rest).
  { unfold trim. rewrite trimStart_blank by assumption.
    rewrite trimStart_token by assumption.
    apply trimEnd_nonspace_prefix. assumption. }
  destruct (split_ws_token name (trimEnd rest) Hname (after_token_trimEnd _ Hrest))
    as (fs & Efs & _).
  unfold parseTable, split_ws. cbv zeta. rewrite Htrim, Efs. reflexivity.
Qed.

Lemma parseTable_drops_alias_witness :
  parseTable (" " ++ "EMPLOYEE" ++ " AS e") = "EMPLOYEE".
Proof.
  apply parseTable_drops_alias; [reflexivity | reflexivity |].
  right. exists " "%cu, "AS e". split; reflexivity.
Defined.

(** the dot of [/^.*\./] matches a dot only *)
Lemma upper_dot (c : char) : canonicalize "." = canonicalize c -> c = "."%cu.
Proof.
  intros H. destruct (canonicalize_ascii_inv "." c) as (Hc & Hu);
    [reflexivity | assumption |].
  change (asciiUpper ".") with 46%N in Hu. change "."%cu with 46%N.
  destruct (asciiUpper_cases c) as [E|(H1 & H2 & E)]; rewrite E in Hu; lia.
Qed.

Lemma rep_loop_greedy_cons (p : char -> bool) (k : string -> option state)
    (a : char) (s : string) :
  rep_loop true p k (String a s) =
  if p a then match rep_loop true p k s with
              | Some x => Some x
              | None => k (String a s)
              end
  else k (String a s).
Proof. reflexivity. Qed.

Lemma run_lit_dot (a : char) (s : string) (c : captures) (k : cont) :
  run (Lit ".") (String a s) c k =
  if Char.eqb (canonicalize ".") (canonicalize a) then k s c else None.
Proof.
  change (run (Lit ".") (String a s) c k)
    with (match (if Char.eqb (canonicalize ".") (canonicalize a) then Some s else None) with
          | Some s' => k s' c
          | None => None
          end).
  destruct (Char.eqb (canonicalize ".") (canonicalize a)); reflexivity.
Qed.

Lemma no_char_cons (d c : char) (s : string) :
  no_char d (String c s) = true -> c <> d /\ no_char d s = true.
Proof.
  unfold no_char. cbn [all_chars]. intros H.
  apply andb_true_iff in H. destruct H as [Hc Hs].
  apply negb_true_iff, N.eqb_neq in Hc. split; assumption.
Qed.

Lemma lit_dot_other (c : char) :
  c <> "."%cu -> Char.eqb (canonicalize ".") (canonicalize c) = false.
Proof.
  intros Hc. apply N.eqb_neq. intros E. apply Hc, upper_dot. exact E.
Qed.

(** the greedy [.*] of [/^.*\./] finds no dot in a text without dots *)
Lemma greedy_without_dot (s : string) (c : captures) (k : cont) :
  no_char "." s = true ->
  rep_loop true is_dot (fun s' => run (Lit ".") s' c k) s = None.
Proof.
  induction s as [|a s IH]; intros H.
  - reflexivity.
  - apply no_char_cons in H. destruct H as [Ha Hs].
    rewrite rep_loop_greedy_cons, (IH Hs), run_lit_dot, (lit_dot_other _ Ha).
    destruct (is_dot a); reflexivity.
Qed.

(** and stops at the last dot of a line *)
Lemma greedy_to_last_dot (w s : string) :
  all_chars is_dot w = true -> no_char "." s = true ->
  exec_here tablePrefixRe (w ++ "." ++ s) = Some (s, []).
Proof.
  intros Hw Hs. unfold exec_here, tablePrefixRe.
  change (run (Cat (Rep true is_dot) (Lit ".")) (w ++ "." ++ s) []
            (fun s' c' => Some (s', c')))
    with (rep_loop true is_dot
            (fun s' => run (Lit ".") s' [] (fun s1 c1 => Some (s1, c1)))
            (w ++ "." ++ s)).
  induction w as [|a w IH].
  - change ("" ++ "." ++ s) with (String "." s).
    rewrite rep_loop_greedy_cons, greedy_without_dot by assumption.
    rewrite run_lit_dot. reflexivity.
  - cbn [all_chars] in Hw. apply andb_true_iff in Hw. destruct Hw as [Ha Hw].
    change (String a w ++ "." ++ s) with (String a (w ++ "." ++ s)).
    rewrite rep_loop_greedy_cons, Ha, (IH Hw). reflexivity.
Qed.

Lemma no_space_is_dot (s : string) : no_space s = true -> all_chars is_dot s = true.
Proof.
  unfold no_space. induction s as [|c s IH]; [reflexivity|]. simpl.
  intros H. apply andb_true_iff in H. destruct H as [Hc Hs].
  rewrite (IH Hs), andb_true_r.
  destruct (is_dot c) eqn:E; [reflexivity|].
  rewrite (not_dot_is_space _ E) in Hc. discriminate.
Qed.

Lemma no_char_append (d : char) (a b : string) :
  no_char d (a ++ b) = no_char d a && no_char d b.
Proof.
  unfold no_char. induction a as [|c a IH]; simpl; [reflexivity|].
  rewrite IH. apply andb_assoc.
Qed.

Lemma no_char_trimEnd (d : char) (s : string) :
  no_char d s = true -> no_char d (trimEnd s) = true.
Proof.
  unfold no_char. induction s as [|c s IH]; [reflexivity|]. simpl.
  intros H. apply andb_true_iff in H. destruct H as [Hc Hs].
  destruct (is_space c && (trimEnd s =? "")); [reflexivity|].
  simpl. rewrite Hc. auto.
Qed.

(** X3: of a SELECT item written [qualifier.name] and followed by
    anything without a dot (an alias), the column is [name]; without a
    qualifier the first token is the column. *)
Theorem parseColumn_drops_qualifier_and_alias :
  (forall pad qual name rest,
      blank pad = true -> no_space qual = true ->
      token name = true -> no_char "." name = true ->
      after_token rest -> no_char "." rest = true ->
      parseColumn (pad ++ qual ++ "." ++ name ++ rest) = name) /\
  (forall pad name rest,
      blank pad = true ->
      token name = true -> no_char "." name = true ->
      after_token rest -> no_char "." rest = true ->
      parseColumn (pad ++ name ++ rest) = name).
Proof.
  split.
  - intros pad qual name rest Hpad Hqual Hname Hnd Hrest Hrd.
    destruct (token_inv _ Hname) as (_ & _ & _ & _ & Hall).
    assert (Htrim : trim (pad ++ qual ++ "." ++ name ++ rest)
                    = qual ++ "." ++ name ++ trimEnd rest).
    { unfold trim. rewrite trimStart_blank by assumption.
      assert (Hq : token (qual ++ ".") = true).
      { unfold token. unfold no_space in Hqual.
        destruct qual; simpl in *; [reflexivity|].
        apply andb_true_iff in Hqual. destruct Hqual as [Hc Hq]. rewrite Hc.
        simpl. clear Hc. induction qual as [|x qual IHq]; simpl in *; [reflexivity|].
        apply andb_true_iff in Hq. destruct Hq as [Hx Hq]. rewrite Hx. auto. }
      destruct (token_inv _ Hq) as (_ & _ & _ & _ & Hqall).
      rewrite <- (append_assoc qual "." (name ++ rest)).
      rewrite trimStart_token by assumption.
      rewrite trimEnd_nonspace_prefix by assumption.
      rewrite trimEnd_nonspace_prefix by assumption.
      apply append_assoc. }
    assert (Hrem : remove_prefix tablePrefixRe (qual ++ "." ++ name ++ trimEnd rest)
                   = name ++ trimEnd rest).
    { unfold remove_prefix. rewrite greedy_to_last_dot; [reflexivity| |].
      - apply no_space_is_dot. assumption.
      - rewrite no_char_append, Hnd. apply no_char_trimEnd. assumption. }
    destruct (split_ws_token name (trimEnd rest) Hname (after_token_trimEnd _ Hrest))
      as (fs & Efs & _).
    unfold parseColumn, split_ws. cbv zeta. rewrite Htrim, Hrem, Efs. reflexivity.
  - intros pad name rest Hpad Hname Hnd Hrest Hrd.
    destruct (token_inv _ Hname) as (_ & _ & _ & _ & Hall).
    assert (Htrim : trim (pad ++ name ++ rest) = name ++ trimEnd rest).
    { unfold trim. rewrite trimStart_blank by assumption.
      rewrite trimStart_token by assumption.
      apply trimEnd_nonspace_prefix. assumption. }
    assert (Hrem : remove_prefix tablePrefixRe (name ++ trimEnd rest)
                   = name ++ trimEnd rest).
    { unfold remove_prefix, exec_here, tablePrefixRe.
      change (run (Cat (Rep true is_dot) (Lit ".")) (name ++ trimEnd rest) []
                (fun s' c' => Some (s', c')))
        with (rep_loop true is_dot
                (fun s' => run (Lit ".") s' [] (fun s1 c1 => Some (s1, c1)))
                (name ++ trimEnd rest)).
      rewrite greedy_without_dot; [reflexivity|].
      rewrite no_char_append, Hnd. apply no_char_trimEnd. assumption. }
    destruct (split_ws_token name (trimEnd rest) Hname (after_token_trimEnd _ Hrest))
      as (fs & Efs & _).
    unfold parseColumn, split_ws. cbv zeta. rewrite Htrim, Hrem, Efs. reflexivity.
Qed.

Lemma parseColumn_drops_qualifier_and_alias_witness :
  parseColumn (" " ++ "e" ++ "." ++ "Name" ++ " AS n") = "Name".
Proof.
  apply (proj1 parseColumn_drops_qualifier_and_alias); try reflexivity.
  right. exists " "%cu, "AS n". split; reflexivity.
Defined.

(** ** What every extracted query satisfies *)

Lemma split_ws_from_no_space (s : string) :
  forall b, Forall (fun f => no_space f = true) (split_ws_from b s).
Proof.
  induction s as [|c s IH]; intros b; simpl.
  - repeat constructor.
  - destruct (is_space c) eqn:Ec.
    + destruct b; [apply IH | constructor; [reflexivity | apply IH]].
    + specialize (IH false). destruct (split_ws_from false s) as [|f fs].
      * constructor; [|constructor]. unfold no_space. simpl. rewrite Ec. reflexivity.
      * inversion IH; subst. constructor; [|assumption].
        unfold no_space in *. simpl. rewrite Ec. assumption.
Qed.

Lemma first_field_no_space (s : string) : no_space (hd "" (split_ws s)) = true.
Proof.
  unfold split_ws. pose proof (split_ws_from_no_space s false) as H.
  destruct (split_ws_from false s); [reflexivity|].
  inversion H; assumption.
Qed.

Lemma Forall_map_all {A B : Type} (f : A -> B) (P : B -> Prop) (l : list A) :
  (forall x, P (f x)) -> Forall P (map f l).
Proof. intros H. induction l; simpl; constructor; auto. Qed.

Lemma parseOrderItem_shape (col : string) :
  no_space (column (parseOrderItem col)) = true /\
  (direction (parseOrderItem col) = "ASC" \/ direction (parseOrderItem col) = "DESC").
Proof.
  unfold parseOrderItem. cbv zeta. cbn [column direction].
  split; [apply first_field_no_space|].
  destruct (nth_error (split_ws (trim col)) 1) as [d|]; [|left; reflexivity].
  destruct (toUpperCase d =? "DESC"); [right | left]; reflexivity.
Qed.

Lemma clause_Forall {A : Type} (P : A -> Prop) (m : option MatchResult)
    (f : string -> list A) (l : list A) :
  (forall v, Forall P (f v)) -> clause m f = Normal l -> Forall P l.
Proof.
  intros Hf. unfold clause. destruct m as [r|].
  - destruct (group r 1); simpl; intros H; [|discriminate].
    injection H as <-. apply Hf.
  - intros H. injection H as <-. constructor.
Qed.

(** X4: in every extracted query the table names, the column names and
    the ORDER BY columns hold no whitespace, and every ORDER BY
    direction is ASC or DESC. *)
Theorem extracted_names_and_directions (q : string) (p : ParsedQuery) :
  parseSQL q = Some p ->
  Forall (fun t => no_space t = true) (tables p) /\
  Forall (fun c => no_space c = true) (columns p) /\
  Forall (fun ob => no_space (column ob) = true /\
                    (direction ob = "ASC" \/ direction ob = "DESC")) (orderBy p).
Proof.
  intros H.
  destruct (parseSQL_Some_inv _ _ H) as
    (cs & ts & conds & js & gb & ob & hv & _ & _ & Ho & _ & ->).
  cbn [tables columns orderBy]. split; [|split].
  - apply Forall_map_all. intros x. apply first_field_no_space.
  - unfold parseColumns. destruct (cs =? "*").
    + repeat constructor.
    + apply Forall_map_all. intros x. apply first_field_no_space.
  - eapply clause_Forall; [|exact Ho].
    intros v. apply Forall_map_all. intros x. apply parseOrderItem_shape.
Qed.

Lemma extracted_names_and_directions_witness :
  Forall (fun t => no_space t = true) ["A"; "B"] /\
  Forall (fun c => no_space c = true) ["x"] /\
  Forall (fun ob => no_space (column ob) = true /\
                    (direction ob = "ASC" \/ direction ob = "DESC"))
    [mkOrderItem "x" "DESC"; mkOrderItem "y" "ASC"].
Proof.
  exact (extracted_names_and_directions
           "select t.x from A a, B b order by x desc, y up"
           (mkParsedQuery "SELECT" ["A"; "B"] ["x"] [] [] []
              [mkOrderItem "x" "DESC"; mkOrderItem "y" "ASC"] [])
           eq_refl).
Defined.

Lemma trimStart_fixed (s : string) : trimStart (trimStart s) = trimStart s.
Proof.
  induction s as [|c s IH]; [reflexivity|]. simpl.
  destruct (is_space c) eqn:Ec; [exact IH|]. simpl. rewrite Ec. reflexivity.
Qed.

Lemma trimEnd_fixed (s : string) : trimEnd (trimEnd s) = trimEnd s.
Proof.
  induction s as [|c s IH]; [reflexivity|]. simpl.
  destruct (is_space c && (trimEnd s =? "")) eqn:E; [reflexivity|].
  simpl. rewrite IH, E. reflexivity.
Qed.

Lemma trimStart_trimEnd (s : string) :
  trimStart s = s -> trimStart (trimEnd s) = trimEnd s.
Proof.
  destruct s as [|c s]; [reflexivity|]. simpl.
  destruct (is_space c) eqn:Ec.
  - intros H. exfalso.
    assert (Hl : String.length (trimStart s) <= String.length s).
    { clear. induction s as [|a s IH]; simpl; [lia|].
      destruct (is_space a); simpl; lia. }
    rewrite H in Hl. simpl in Hl. lia.
  - intros _. simpl. rewrite Ec. reflexivity.
Qed.

Lemma trim_fixed (s : string) : trim (trim s) = trim s.
Proof.
  unfold trim.
  rewrite (trimStart_trimEnd (trimStart s) (trimStart_fixed s)).
  apply trimEnd_fixed.
Qed.

(** X5: the WHERE and HAVING texts and the GROUP BY items of an
    extracted query carry no whitespace at either end: trimming them
    again changes nothing. *)
Theorem extracted_texts_are_trimmed (q : string) (p : ParsedQuery) :
  parseSQL q = Some p ->
  Forall (fun c => trim c = c) (conditions p) /\
  Forall (fun g => trim g = g) (groupBy p) /\
  Forall (fun h => trim h = h) (having p).
Proof.
  intros H.
  destruct (parseSQL_Some_inv _ _ H) as
    (cs & ts & conds & js & gb & ob & hv & Hc & Hg & _ & Hh & ->).
  cbn [conditions groupBy having]. split; [|split].
  - eapply clause_Forall; [|exact Hc]. intros v. repeat constructor. apply trim_fixed.
  - eapply clause_Forall; [|exact Hg]. intros v.
    apply Forall_map_all. intros x. apply trim_fixed.
  - eapply clause_Forall; [|exact Hh]. intros v. repeat constructor. apply trim_fixed.
Qed.

Lemma extracted_texts_are_trimmed_witness :
  Forall (fun c => trim c = c) ["a = 1"] /\
  Forall (fun g => trim g = g) ["b"; "c"] /\
  Forall (fun h => trim h = h) ["d > 2"].
Proof.
  exact (extracted_texts_are_trimmed
           "select x from T where  a = 1  group by b , c  having d > 2"
           (mkParsedQuery "SELECT" ["T"] ["x"] ["a = 1"] [] ["b"; "c"] [] ["d > 2"])
           eq_refl).
Defined.

(** ** Clauses and operators *)

(** X8: a clause list of an extracted query is empty exactly when the
    pattern of the clause has no match in the trimmed text; σ, γ, the
    HAVING σ and τ are printed exactly when their pattern matches. *)
Theorem operators_follow_patterns (q : string) (p : ParsedQuery) :
  parseSQL q = Some p ->
  (conditions p = [] <-> search whereRe (trim q) = None) /\
  (groupBy p = [] <-> search groupByRe (trim q) = None) /\
  (having p = [] <-> search havingRe (trim q) = None) /\
  (orderBy p = [] <-> search orderByRe (trim q) = None) /\
  (forall acc,
      (applySelection p acc = acc <-> search whereRe (trim q) = None) /\
      (applyGrouping p acc = acc <-> search groupByRe (trim q) = None) /\
      (applyHaving p acc = acc <-> search havingRe (trim q) = None) /\
      (applyOrdering p acc = acc <-> search orderByRe (trim q) = None)).
Proof.
  intros H.
  destruct (parseSQL_Some_inv _ _ H) as
    (cs & ts & conds & js & gb & ob & hv & Hc & Hg & Ho & Hh & ->).
  apply clause_value in Hc; [|reflexivity].
  apply clause_value in Hg; [|reflexivity].
  apply clause_value in Ho; [|reflexivity].
  apply clause_value in Hh; [|reflexivity].
  assert (Hsplit : forall (A : Type) (f : string -> A) v, map f (split_on "," v) <> []).
  { intros A f v E. pose proof (split_on_length "," v) as Hl.
    destruct (split_on "," v); [simpl in Hl; lia | discriminate]. }
  assert (Ec : conds = [] <-> search whereRe (trim q) = None).
  { destruct (search whereRe (trim q)); [|tauto].
    destruct Hc as (v & _ & ->). split; discriminate. }
  assert (Eg : gb = [] <-> search groupByRe (trim q) = None).
  { destruct (search groupByRe (trim q)); [|tauto].
    destruct Hg as (v & _ & ->). split; [intros E; elim (Hsplit _ _ _ E) | discriminate]. }
  assert (Eh : hv = [] <-> search havingRe (trim q) = None).
  { destruct (search havingRe (trim q)); [|tauto].
    destruct Hh as (v & _ & ->). split; discriminate. }
  assert (Eo : ob = [] <-> search orderByRe (trim q) = None).
  { destruct (search orderByRe (trim q)); [|tauto].
    destruct Ho as (v & _ & ->). split; [intros E; elim (Hsplit _ _ _ E) | discriminate]. }
  cbn [conditions groupBy having orderBy].
  repeat (split; [assumption|]).
  intros acc.
  unfold applySelection, applyGrouping, applyHaving, applyOrdering.
  cbn [conditions groupBy having orderBy].
  repeat split; intros E.
  - apply Ec. destruct conds; [reflexivity|]. exfalso. simpl in E.
    apply (f_equal String.length) in E. simpl in E.
    rewrite !length_append in E. simpl in E. rewrite !length_append in E. simpl in E. lia.
  - apply Ec in E. subst. reflexivity.
  - apply Eg. destruct gb; [reflexivity|]. exfalso. simpl in E.
    apply (f_equal String.length) in E. simpl in E.
    rewrite !length_append in E. simpl in E. rewrite !length_append in E. simpl in E. lia.
  - apply Eg in E. subst. reflexivity.
  - apply Eh. destruct hv; [reflexivity|]. exfalso. simpl in E.
    apply (f_equal String.length) in E. simpl in E.
    rewrite !length_append in E. simpl in E. rewrite !length_append in E. simpl in E. lia.
  - apply Eh in E. subst. reflexivity.
  - apply Eo. destruct ob; [reflexivity|]. exfalso. simpl in E.
    apply (f_equal String.length) in E. simpl in E.
    rewrite !length_append in E. simpl in E. rewrite !length_append in E. simpl in E. lia.
  - apply Eo in E. subst. reflexivity.
Qed.

Lemma operators_follow_patterns_witness :
  ["a = 1"] = [] <-> search whereRe (trim "select x from T where a = 1") = None.
Proof.
  exact (proj1 (operators_follow_patterns "select x from T where a = 1"
                  (mkParsedQuery "SELECT" ["T"] ["x"] ["a = 1"] [] [] [] [])
                  eq_refl)).
Defined.

(** ** Nothing is rewritten *)

Lemma contains_refl (s : string) : contains s s.
Proof. exists "", "". simpl. symmetry. apply append_nil_r. Qed.

Lemma contains_trans (a b c : string) :
  contains a b -> contains b c -> contains a c.
Proof.
  intros (p1 & q1 & ->) (p2 & q2 & ->).
  exists (p1 ++ p2), (q2 ++ q1). rewrite !append_assoc. reflexivity.
Qed.

Lemma applyJoin_contains (acc : string) (j : Join) : contains (applyJoin acc j) acc.
Proof.
  unfold applyJoin. exists "(". eexists. cbv zeta. reflexivity.
Qed.

Lemma fold_applyJoin_contains (js : list Join) (acc x : string) :
  contains acc x -> contains (fold_left applyJoin js acc) x.
Proof.
  revert acc. induction js as [|j js IH]; intros acc H; [assumption|].
  simpl. apply IH. eapply contains_trans; [apply applyJoin_contains | assumption].
Qed.

Lemma applySelection_contains (p : ParsedQuery) (acc x : string) :
  contains acc x -> contains (applySelection p acc) x.
Proof.
  intros H. unfold applySelection. destruct (Nat.ltb 0 _); [|assumption].
  rewrite <- !append_assoc. rewrite append_assoc.
  apply contains_wrap. assumption.
Qed.

(** X9: no step of the renderer rewrites what the steps before it
    produced: the base relation and the expression after each join occur
    unchanged in the final expression. *)
Theorem render_keeps_every_stage (p : ParsedQuery) (done rest : list Join) :
  joins p = (done ++ rest)%list ->
  contains (convertToRelationalAlgebra p)
    (fold_left applyJoin done (baseRelation p)).
Proof.
  intros Hj. unfold convertToRelationalAlgebra. cbv zeta.
  apply applyOrdering_contains, applyProjection_contains, applyHaving_contains,
    applyGrouping_contains, applySelection_contains.
  rewrite Hj, fold_left_app. apply fold_applyJoin_contains, contains_refl.
Qed.

Lemma render_keeps_every_stage_witness :
  contains
    (convertToRelationalAlgebra
       (mkParsedQuery "SELECT" ["A"] ["x"] ["c"]
          [mkJoin "JOIN" "B" "A.k = B.k"; mkJoin "LEFT JOIN" "C" "B.k = C.k"]
          [] [] []))
    "(A ⋈[A.k = B.k] B)".
Proof.
  exact (render_keeps_every_stage
           (mkParsedQuery "SELECT" ["A"] ["x"] ["c"]
              [mkJoin "JOIN" "B" "A.k = B.k"; mkJoin "LEFT JOIN" "C" "B.k = C.k"]
              [] [] [])
           [mkJoin "JOIN" "B" "A.k = B.k"] [mkJoin "LEFT JOIN" "C" "B.k = C.k"]
           eq_refl).
Defined.

(** ** The join condition as printed *)

Lemma collapse_ws_from_single_spaced (s : string) :
  forall b, single_spaced_from b (collapse_ws_from b s) = true.
Proof.
  induction s as [|c s IH]; intros b; [reflexivity|]. simpl.
  destruct (is_space c) eqn:Ec.
  - destruct b; [apply IH|]. simpl. apply IH.
  - simpl. rewrite Ec. apply IH.
Qed.

Lemma collapse_ws_from_fixed (s : string) :
  forall b, single_spaced_from b s = true -> collapse_ws_from b s = s.
Proof.
  induction s as [|c s IH]; intros b H; [reflexivity|]. simpl in *.
  destruct (is_space c) eqn:Ec.
  - apply andb_true_iff in H. destruct H as [H Hs].
    apply andb_true_iff in H. destruct H as [Hc Hb].
    apply N.eqb_eq in Hc. apply negb_true_iff in Hb. subst b c.
    rewrite (IH _ Hs). reflexivity.
  - rewrite (IH _ H). reflexivity.
Qed.

(** X10: the two [replace] calls on a join condition print it with every
    run of whitespace turned into one space and nothing else changed: the
    printed text has only single spaces, a condition that already has
    only single spaces is printed as it is, and the replacement of [=] by
    [=] changes no condition. *)
Theorem join_condition_as_printed (acc : string) (j : Join) :
  applyJoin acc j =
    "(" ++ acc ++ " " ++ joinSymbol j ++ "[" ++ collapse_ws (condition j) ++ "] "
        ++ table j ++ ")" /\
  single_spaced (collapse_ws (condition j)) = true /\
  (single_spaced (condition j) = true -> collapse_ws (condition j) = condition j) /\
  replace_eq (condition j) = condition j.
Proof.
  split; [apply applyJoin_shape|].
  split; [apply collapse_ws_from_single_spaced|].
  split; [apply collapse_ws_from_fixed | apply replace_eq_id].
Qed.

Lemma join_condition_as_printed_witness :
  collapse_ws "a.x = b.x AND a.y = b.y" = "a.x = b.x AND a.y = b.y".
Proof.
  exact (proj1 (proj2 (proj2 (join_condition_as_printed ""
           (mkJoin "JOIN" "b" "a.x = b.x AND a.y = b.y")))) eq_refl).
Defined.

(** ** Joins *)

Lemma match_all_from_inv (r : re) (s : string) :
  forall skip w, In w (match_all_from r skip s) ->
    exists pre s' c, s = pre ++ w ++ s' /\ exec_here r (w ++ s') = Some (s', c).
Proof.
  induction s as [|a s IH]; intros skip w H.
  - destruct skip; simpl in H; [|contradiction].
    destruct (exec_here r "") as [[s' c]|] eqn:E; [|contradiction].
    destruct H as [<-|[]].
    destruct (exec_here_inv _ _ _ _ E) as (Hs & _).
    exists "", s', c. rewrite <- Hs. split; [reflexivity | assumption].
  - destruct skip as [|n]; simpl in H.
    + destruct (exec_here r (String a s)) as [[s' c]|] eqn:E.
      * destruct H as [<-|H].
        -- destruct (exec_here_inv _ _ _ _ E) as (Hs & _).
           exists "", s', c. rewrite <- Hs. split; [reflexivity | assumption].
        -- destruct (IH _ _ H) as (pre & s1 & c1 & -> & E1).
           exists (String a pre), s1, c1. split; [reflexivity | assumption].
      * destruct (IH _ _ H) as (pre & s1 & c1 & -> & E1).
        exists (String a pre), s1, c1. split; [reflexivity | assumption].
    + destruct (IH _ _ H) as (pre & s1 & c1 & -> & E1).
      exists (String a pre), s1, c1. split; [reflexivity | assumption].
Qed.

Lemma matches_cat_tail (r1 r2 : re) (s s' : string) (c c' : captures) :
  matches (Cat r1 r2) s c s' c' -> exists s1 c1, matches r2 s1 c1 s' c'.
Proof.
  intros H.
  inversion H as [| |r1' r2' s0 c0 s1 c1 s2 c2 H1 H2| | | | | | | | |]; subst.
  exists s1, c1. assumption.
Qed.

Lemma matches_ws_starts (s s' : string) (c c' : captures) :
  matches ws s c s' c' -> exists a r, s = String a r /\ is_space a = true.
Proof.
  unfold ws, Plus. intros H.
  inversion H as [| |r1' r2' s0 c0 s1 c1 s2 c2 H1 H2| | | | | | | | |]; subst.
  inversion H1; subst. eexists _, _. split; [reflexivity | assumption].
Qed.

Lemma joinRegex_needs_whitespace_after (s s' : string) (c : captures) :
  exec_here joinRegex s = Some (s', c) ->
  exists a r, s' = String a r /\ is_space a = true.
Proof.
  intros E. destruct (exec_here_inv _ _ _ _ E) as (_ & H).
  unfold joinRegex in H.
  do 8 (apply matches_cat_tail in H; destruct H as (? & ? & H)).
  inversion H as [| | | | | | | | | |r s0 c0 s1 c1 Hin|]; subst.
  apply matches_cat_tail in Hin as Hx. clear Hx.
  inversion Hin as [| |r1' r2' s0 c0 s1' c1' s2 c2 H1 H2| | | | | | | | |]; subst.
  eapply matches_ws_starts. eassumption.
Qed.

(** X6: every text that joinRegex matches is followed by a whitespace
    character in the query, because its lookahead asks for whitespace
    before every boundary, the end of the text included; no match runs
    to the end of the text. *)
Theorem join_match_never_ends_the_text (t : string) (l : list string) (w : string) :
  match_all joinRegex t = Some l -> In w l ->
  exists pre a rest, t = pre ++ w ++ String a rest /\ is_space a = true.
Proof.
  unfold match_all. intros Hl Hw.
  assert (Hin : In w (match_all_from joinRegex 0 t)).
  { destruct (match_all_from joinRegex 0 t); [discriminate|].
    injection Hl as <-. assumption. }
  destruct (match_all_from_inv _ _ _ _ Hin) as (pre & s' & c & -> & E).
  destruct (joinRegex_needs_whitespace_after _ _ _ E) as (a & r & -> & Ha).
  exists pre, a, r. split; [reflexivity | assumption].
Qed.

Lemma join_match_never_ends_the_text_witness :
  exists pre a rest,
    "select * from A join B on A.k = B.k where A.x = 1"
    = pre ++ "join B on A.k = B.k" ++ String a rest /\ is_space a = true.
Proof.
  refine (join_match_never_ends_the_text
            "select * from A join B on A.k = B.k where A.x = 1"
            ["join B on A.k = B.k"] "join B on A.k = B.k" _ _).
  - vm_compute. reflexivity.
  - left. reflexivity.
Defined.

Lemma matches_rep_text (g : bool) (p : char -> bool) (s s' : string)
    (c c' : captures) :
  matches (Rep g p) s c s' c' ->
  exists w, s = w ++ s' /\ all_chars p w = true.
Proof.
  intros H. remember (Rep g p) as r eqn:Er.
  induction H; try discriminate; injection Er as -> ->.
  - exists "". split; reflexivity.
  - destruct (IHmatches eq_refl) as (w & -> & Hw).
    exists (String a w). split; [reflexivity|]. simpl. rewrite H, Hw. reflexivity.
Qed.

Lemma matches_plus_text (g : bool) (p : char -> bool) (s s' : string)
    (c c' : captures) :
  matches (Plus g p) s c s' c' ->
  exists a w, consumed s s' = String a w /\ all_chars p (String a w) = true /\ c' = c.
Proof.
  unfold Plus. intros H.
  inversion H as [| |r1' r2' s0 c0 s1 c1 s2 c2 H1 H2| | | | | | | | |]; subst.
  inversion H1; subst.
  destruct (matches_rep_text _ _ _ _ _ _ H2) as (w & -> & Hw).
  exists a, w. change (String a (w ++ s')) with (String a w ++ s').
  rewrite consumed_append. split; [reflexivity|]. split.
  - simpl. rewrite Hw. rewrite andb_true_r. assumption.
  - eapply matches_plain; [exact H2 | reflexivity].
Qed.

Lemma matches_cat_plain_head (r1 r2 : re) (s s' : string) (c c' : captures) :
  plain r1 = true -> matches (Cat r1 r2) s c s' c' ->
  exists s1, matches r2 s1 c s' c'.
Proof.
  intros Hp H.
  inversion H as [| |r1' r2' s0 c0 s1 c1 s2 c2 H1 H2| | | | | | | | |]; subst.
  rewrite (matches_plain _ _ _ _ _ H1 Hp) in H2. exists s1. assumption.
Qed.

Lemma matches_cat_group_head (n : nat) (r1 r2 : re) (s s' : string)
    (c c' : captures) :
  matches (Cat (Grp n r1) r2) s c s' c' ->
  exists s1 c1, matches r1 s c s1 c1 /\
                matches r2 s1 ((n, consumed s s1) :: c1) s' c'.
Proof.
  intros H.
  inversion H as [| |r1' r2' s0 c0 s1 c1 s2 c2 H1 H2| | | | | | | | |]; subst.
  inversion H1; subst. eexists _, _. split; eassumption.
Qed.

(** the captures of the pattern applied to each join text *)
Lemma partsRe_captures (s s' : string) (c : captures) :
  matches partsRe s [] s' c ->
  exists a w b v,
    capture 1 c = Some (String a w) /\ all_chars is_word (String a w) = true /\
    capture 2 c = Some (String b v) /\ all_chars is_dot (String b v) = true.
Proof.
  unfold partsRe. intros H.
  apply matches_cat_plain_head in H; [|reflexivity]. destruct H as (s1 & H).
  apply matches_cat_plain_head in H; [|reflexivity]. destruct H as (s2 & H).
  apply matches_cat_group_head in H. destruct H as (s3 & c3 & Hg1 & H).
  destruct (matches_plus_text _ _ _ _ _ _ Hg1) as (a & w & Ew & Hw & ->).
  rewrite Ew in H.
  apply matches_cat_plain_head in H; [|reflexivity]. destruct H as (s4 & H).
  apply matches_cat_plain_head in H; [|reflexivity]. destruct H as (s5 & H).
  apply matches_cat_plain_head in H; [|reflexivity]. destruct H as (s6 & H).
  apply matches_cat_plain_head in H; [|reflexivity]. destruct H as (s7 & H).
  inversion H as [| | | | | | | | |n r s0 c0 s1' c1 Hg2| |]; subst.
  destruct (matches_plus_text _ _ _ _ _ _ Hg2) as (b & v & Ev & Hv & ->).
  rewrite Ev. exists a, w, b, v. repeat split; assumption.
Qed.

Lemma all_chars_append (p : char -> bool) (a b : string) :
  all_chars p (a ++ b) = all_chars p a && all_chars p b.
Proof.
  induction a as [|c a IH]; simpl; [reflexivity|].
  rewrite IH. apply andb_assoc.
Qed.

Lemma lit_match_ascii (w v : string) :
  lit_match w v = Some "" ->
  all_chars (fun a => N.ltb a 128) w = true ->
  all_chars (fun a => N.ltb a 128) v = true.
Proof.
  revert v. induction w as [|a w IH]; intros v H Hw; simpl in H.
  - injection H as ->. reflexivity.
  - destruct v as [|b v]; [discriminate|].
    destruct (Char.eqb (canonicalize a) (canonicalize b)) eqn:E; [|discriminate].
    simpl in Hw. apply andb_true_iff in Hw. destruct Hw as [Ha Hw].
    apply N.eqb_eq in E. apply N.ltb_lt in Ha.
    destruct (canonicalize_ascii_inv _ _ Ha E) as (Hb & _).
    simpl. rewrite (IH _ H Hw), andb_true_r. apply N.ltb_lt. assumption.
Qed.

(** what a pattern of keywords and whitespace matches *)
Lemma matches_keyword_text (r : re) (s s' : string) (c c' : captures) :
  matches r s c s' c' -> keyword_text r ->
  exists w, s = w ++ s' /\ all_chars keyword_char w = true.
Proof.
  induction 1 as [p a s c Hp|w s s' c Hl|r1 r2 s c s1 c1 s2 c2 H1 IH1 H2 IH2
                 |r1 r2 s c s' c' H1 IH1|r1 r2 s c s' c' H2 IH2
                 |g p s c|g p a s c s' Hp H1 IH1
                 |r s c s' c' H1 IH1|r s c
                 |m r s c s' c' H1 IH1|r s c s' c' H1 IH1|c];
    cbn [keyword_text]; intros Hk.
  - exists (String a ""). split; [reflexivity|]. simpl. rewrite (Hk _ Hp). reflexivity.
  - destruct (lit_match_inv _ _ _ Hl) as (v & -> & Hv).
    exists v. split; [reflexivity|].
    pose proof (lit_match_ascii _ _ Hv Hk) as Ha.
    clear - Ha. induction v as [|b v IH]; [reflexivity|].
    simpl in Ha |- *. apply andb_true_iff in Ha. destruct Ha as [Hb Ha].
    unfold keyword_char at 1. rewrite Hb. simpl. auto.
  - destruct Hk as [Hk1 Hk2].
    destruct (IH1 Hk1) as (w1 & -> & Hw1). destruct (IH2 Hk2) as (w2 & -> & Hw2).
    exists (w1 ++ w2). split; [symmetry; apply append_assoc|].
    rewrite all_chars_append, Hw1, Hw2. reflexivity.
  - apply IH1, Hk.
  - apply IH2, Hk.
  - exists "". split; reflexivity.
  - destruct (IH1 Hk) as (w & -> & Hw).
    exists (String a w). split; [reflexivity|]. simpl. rewrite (Hk _ Hp), Hw. reflexivity.
  - apply IH1, Hk.
  - exists "". split; reflexivity.
  - apply IH1, Hk.
  - exists "". split; reflexivity.
  - exists "". split; reflexivity.
Qed.

Lemma asciiUpper_fixed (c : char) : asciiUpper (asciiUpper c) = asciiUpper c.
Proof.
  destruct (asciiUpper_cases c) as [E|(H1 & H2 & E)]; rewrite E; [exact E|].
  unfold asciiUpper, in_range.
  destruct (N.leb 97 (c - 32)) eqn:E1; [apply N.leb_le in E1; lia | reflexivity].
Qed.

Lemma keyword_char_upper (c : char) :
  keyword_char c = true -> keyword_char (asciiUpper c) = true.
Proof.
  intros H. destruct (asciiUpper_cases c) as [E|(H1 & H2 & E)]; rewrite E;
    [assumption|].
  unfold keyword_char. apply orb_true_iff. left. apply N.ltb_lt. lia.
Qed.

Lemma toUpperCase_cons_keyword (c : char) (s : string) :
  keyword_char c = true ->
  toUpperCase (String c s) = String (asciiUpper c) (toUpperCase s).
Proof.
  unfold keyword_char. intros H.
  destruct (N.ltb c 128) eqn:E.
  - apply N.ltb_lt in E. apply toUpperCase_cons_ascii. assumption.
  - simpl in H. rewrite toUpperCase_cons_space by assumption.
    apply N.ltb_ge in E. f_equal. unfold asciiUpper, in_range.
    destruct (N.leb c 122) eqn:E2; [apply N.leb_le in E2; lia|].
    rewrite andb_false_r. reflexivity.
Qed.

(** the upper case of a keyword phrase is in upper case *)
Lemma toUpperCase_fixed (s : string) :
  all_chars keyword_char s = true ->
  toUpperCase (toUpperCase s) = toUpperCase s.
Proof.
  induction s as [|c s IH]; intros H; [reflexivity|].
  simpl in H. apply andb_true_iff in H. destruct H as [Hc Hs].
  rewrite toUpperCase_cons_keyword by assumption.
  rewrite toUpperCase_cons_keyword by (apply keyword_char_upper; assumption).
  rewrite asciiUpper_fixed, IH by assumption. reflexivity.
Qed.

Lemma joinKeyword_text : keyword_text joinKeyword.
Proof.
  assert (Hs : forall c, is_space c = true -> keyword_char c = true).
  { intros c Hc. unfold keyword_char. rewrite Hc. apply orb_true_r. }
  unfold joinKeyword, ws, Plus. cbn [keyword_text].
  repeat split; solve [reflexivity | exact Hs].
Qed.

(** the type of a join is in upper case *)
Lemma joinType_upper (m : string) :
  let found := match search typeRe m with
               | Some t => group t 1
               | None => None
               end in
  let type := match found with
              | Some v => if v =? "" then "JOIN" else v
              | None => "JOIN"
              end in
  toUpperCase (toUpperCase type) = toUpperCase type.
Proof.
  cbv zeta. apply toUpperCase_fixed.
  destruct (search typeRe m) as [t|] eqn:Et; [|reflexivity].
  destruct (search_from_inv _ _ _ _ Et) as (pre & s' & _ & _ & Hm).
  unfold typeRe in Hm. unfold group.
  inversion Hm as [| | | | | | | | |n r s0 c0 s1 c1 Hk| |]; subst.
  destruct (matches_keyword_text _ _ _ _ _ Hk joinKeyword_text) as (w & Hw & Hc).
  cbn [capture]. rewrite Nat.eqb_refl. rewrite Hw, consumed_append.
  destruct (w =? ""); [reflexivity | assumption].
Qed.

Lemma all_chars_trimStart (p : char -> bool) (s : string) :
  all_chars p s = true -> all_chars p (trimStart s) = true.
Proof.
  induction s as [|c s IH]; [reflexivity|]. intros H. simpl.
  destruct (is_space c); [|assumption].
  simpl in H. apply andb_true_iff in H. apply IH. tauto.
Qed.

Lemma all_chars_trimEnd (p : char -> bool) (s : string) :
  all_chars p s = true -> all_chars p (trimEnd s) = true.
Proof.
  induction s as [|c s IH]; [reflexivity|]. intros H. simpl.
  simpl in H. apply andb_true_iff in H. destruct H as [Hc Hs].
  destruct (is_space c && (trimEnd s =? "")); [reflexivity|].
  simpl. rewrite Hc. auto.
Qed.

Lemma parseJoin_shape (m : string) (j : Join) :
  parseJoin m = Normal (Some j) ->
  table j <> "" /\ all_chars is_word (table j) = true /\
  toUpperCase (type j) = type j /\
  trim (condition j) = condition j /\ all_chars is_dot (condition j) = true.
Proof.
  unfold parseJoin. destruct (search partsRe m) as [parts|] eqn:E; [|discriminate].
  destruct (search_from_inv _ _ _ _ E) as (pre & s' & _ & _ & Hm).
  destruct (partsRe_captures _ _ _ Hm) as (a & w & b & v & H1 & Hw & H2 & Hv).
  unfold group. rewrite H1, H2. simpl. intros H. injection H as <-.
  cbn [table type condition].
  split; [discriminate|]. split; [assumption|].
  split; [apply joinType_upper|]. split; [apply trim_fixed|].
  unfold trim. apply all_chars_trimEnd, all_chars_trimStart. assumption.
Qed.

Lemma mapM_filter_Forall {A B : Type} (f : A -> completion (option B))
    (P : B -> Prop) (l : list A) (ys : list (option B)) :
  (forall x y, f x = Normal (Some y) -> P y) ->
  mapM f l = Normal ys -> Forall P (filterBoolean ys).
Proof.
  intros Hf. revert ys. induction l as [|x l IH]; intros ys H; simpl in H.
  - injection H as <-. constructor.
  - destruct (f x) as [y|] eqn:Ex; [|discriminate]. simpl in H.
    destruct (mapM f l) as [ys'|]; [|discriminate]. simpl in H.
    injection H as <-. specialize (IH _ eq_refl).
    destruct y as [y|]; simpl; [constructor; eauto | assumption].
Qed.

Lemma parseSQL_Some_joins (q : string) (p : ParsedQuery) :
  parseSQL q = Some p -> parseJoins (trim q) = Normal (joins p).
Proof.
  unfold parseSQL. cbv zeta.
  destruct (negb (startsWith (toUpperCase (trim q)) "SELECT")); [discriminate|].
  destruct (parseSQL_try_inv (trim q)) as
    [(_ & Ht) | (sm & fm & cs & ts & conds & js & gb & ob & hv &
                 _ & _ & _ & _ & _ & Hj & _ & _ & _ & Ht)];
    rewrite Ht; intros H; [discriminate|].
  injection H as <-. exact Hj.
Qed.

(** X7: every join of an extracted query has a table name that is a
    non-empty word of [A-Za-z0-9_], a type in upper case, and a condition
    on one line without whitespace at either end. *)
Theorem extracted_joins_are_well_formed (q : string) (p : ParsedQuery) :
  parseSQL q = Some p ->
  Forall (fun j => table j <> "" /\ all_chars is_word (table j) = true /\
                   toUpperCase (type j) = type j /\
                   trim (condition j) = condition j /\
                   all_chars is_dot (condition j) = true) (joins p).
Proof.
  intros H. apply parseSQL_Some_joins in H. unfold parseJoins in H.
  destruct (match_all joinRegex (trim q)) as [l|].
  - destruct (mapM parseJoin l) as [ys|] eqn:E; [|discriminate].
    simpl in H. injection H as <-.
    eapply mapM_filter_Forall; [|exact E]. apply parseJoin_shape.
  - injection H as <-. constructor.
Qed.

Lemma extracted_joins_are_well_formed_witness :
  Forall (fun j => table j <> "" /\ all_chars is_word (table j) = true /\
                   toUpperCase (type j) = type j /\
                   trim (condition j) = condition j /\
                   all_chars is_dot (condition j) = true)
    [mkJoin "LEFT OUTER JOIN" "B" "A.k = B.k"].
Proof.
  exact (extracted_joins_are_well_formed
           "select * from A left outer join B b on A.k = B.k  where A.x = 1"
           (mkParsedQuery "SELECT" ["A"] ["*"] ["A.x = 1"]
              [mkJoin "LEFT OUTER JOIN" "B" "A.k = B.k"] [] [] [])
           eq_refl).
Defined.

(** ** The panels of the converter *)

Lemma truthy_false (s : string) : truthy s = false <-> s = "".
Proof.
  unfold truthy. rewrite negb_false_iff. apply string_eqb_eq.
Qed.

(** X11: after the effect has run on a query, a blank query shows no
    panel at all and any other query shows exactly one of the three: the
    error when parseSQL returns null, the expression when it is not the
    empty string, the placeholder when it is; an error never comes with
    an expression. *)
Theorem converter_shows_one_panel (sqlQuery : string) (st : Converter.State) :
  let st' := Converter.onQueryChange sqlQuery st in
  let shown := Nat.b2n (Converter.showsError st')
               + Nat.b2n (Converter.showsAlgebra st')
               + Nat.b2n (Converter.showsPlaceholder sqlQuery st') in
  (trim sqlQuery = "" -> shown = 0) /\
  (trim sqlQuery <> "" -> shown = 1) /\
  (Converter.showsError st' = true <->
   trim sqlQuery <> "" /\ parseSQL sqlQuery = None) /\
  (Converter.showsAlgebra st' = true <->
   trim sqlQuery <> "" /\
   exists p, parseSQL sqlQuery = Some p /\ convertToRelationalAlgebra p <> "") /\
  (Converter.error st' <> None -> Converter.relationalAlgebra st' = "") /\
  Converter.copied st' = Converter.copied st.
Proof.
  unfold Converter.onQueryChange.
  destruct (truthy (trim sqlQuery)) eqn:Et; cbn [negb].
  - assert (Hne : trim sqlQuery <> "").
    { intros E. apply truthy_false in E. congruence. }
    destruct (parseSQL sqlQuery) as [p|] eqn:Ep.
    + unfold Converter.showsError, Converter.showsAlgebra, Converter.showsPlaceholder.
      cbn [Converter.error Converter.relationalAlgebra Converter.copied].
      rewrite Et.
      destruct (truthy (convertToRelationalAlgebra p)) eqn:Er; cbn;
        (split; [|split; [|split; [|split; [|split]]]]);
        try reflexivity; try (intros E; contradiction); try congruence.
      * split; [discriminate | intros (_ & H); discriminate].
      * split; [|reflexivity]. intros _. split; [assumption|].
        exists p. split; [reflexivity|].
        intros E. apply truthy_false in E. congruence.
      * split; [discriminate | intros (_ & H); discriminate].
      * split; [discriminate|]. intros (_ & p' & Hp' & Hr).
        injection Hp' as <-. apply truthy_false in Er. contradiction.
    + unfold Converter.showsError, Converter.showsAlgebra, Converter.showsPlaceholder.
      cbn. (split; [|split; [|split; [|split; [|split]]]]);
        try reflexivity; try (intros E; contradiction).
      * split; [intros _; split; [assumption | reflexivity] | reflexivity].
      * split; [discriminate | intros (_ & p' & Hp' & _); discriminate].
  - unfold Converter.showsError, Converter.showsAlgebra, Converter.showsPlaceholder.
    cbn. rewrite Et. apply truthy_false in Et. cbn. (split; [|split; [|split; [|split; [|split]]]]);
      try reflexivity; try congruence.
    + split; [discriminate | intros (H & _); contradiction].
    + split; [discriminate | intros (H & _); contradiction].
Qed.

Lemma converter_shows_one_panel_witness :
  Nat.b2n (Converter.showsError
             (Converter.onQueryChange "update T" (Converter.mkState "" None false)))
  + Nat.b2n (Converter.showsAlgebra
               (Converter.onQueryChange "update T" (Converter.mkState "" None false)))
  + Nat.b2n (Converter.showsPlaceholder "update T"
               (Converter.onQueryChange "update T" (Converter.mkState "" None false)))
  = 1.
Proof.
  refine (proj1 (proj2 (converter_shows_one_panel "update T"
                          (Converter.mkState "" None false))) _).
  discriminate.
Defined.

(** ** executeQuery *)

Lemma parseSQL_Some_guard (q : string) (p : ParsedQuery) :
  parseSQL q = Some p -> startsWith (toUpperCase (trim q)) "SELECT" = true.
Proof.
  unfold parseSQL. cbv zeta.
  destruct (startsWith (toUpperCase (trim q)) "SELECT"); [reflexivity | discriminate].
Qed.

(** X12: the page and the converter agree on what a SELECT is: a query
    that parseSQL accepts is run with [selectObjects], and [exec] is not
    called for it. *)
Theorem parsed_queries_are_selected (Value : Type) (api : Page.Database Value)
    (st : Page.State Value api) (d : Page.DB Value api) (p : ParsedQuery) :
  parseSQL (Page.query st) = Some p ->
  Page.db st = Some d ->
  Page.isSelectQuery (Page.query st) = true /\
  Page.executeQuery st =
    match Page.selectObjects Value api d (Page.query st) with
    | (inr (row0 :: rows), d') =>
        Page.succeeded Value api st d' (Page.tableOfRows row0 (row0 :: rows))
    | (inr [], d') =>
        Page.succeeded Value api st d'
          (Page.mkQueryResult ["Result"] [[Page.Message "Query returned no rows"]])
    | (inl err, d') => Page.failed Value api st d' err
    end.
Proof.
  intros Hp Hd. apply parseSQL_Some_guard in Hp.
  assert (Hs : Page.isSelectQuery (Page.query st) = true).
  { unfold Page.isSelectQuery. cbv zeta. rewrite Hp. reflexivity. }
  split; [assumption|].
  unfold Page.executeQuery. rewrite Hd, Hs.
  destruct (Page.selectObjects Value api d (Page.query st)) as [[err|[|row0 rows]] d'];
    reflexivity.
Qed.

(** X13: without a database, executeQuery only sets the error and leaves
    the result and the loading flag as they were, and the Execute button
    is disabled in that state.  With a database it ends with the loading
    flag off and with either an error and no result or a result and no
    error; the result table has at least one row, so the count shown
    under Results is never 0. *)
Theorem executeQuery_outcome (Value : Type) (api : Page.Database Value)
    (st : Page.State Value api) :
  match Page.db st with
  | None =>
      Page.executeDisabled st = true /\
      Page.error (Page.executeQuery st) = Some "Database not loaded" /\
      Page.result (Page.executeQuery st) = Page.result st /\
      Page.isLoading (Page.executeQuery st) = Page.isLoading st /\
      Page.db (Page.executeQuery st) = None
  | Some _ =>
      Page.isLoading (Page.executeQuery st) = false /\
      Page.db (Page.executeQuery st) <> None /\
      ((Page.result (Page.executeQuery st) = None /\
        Page.error (Page.executeQuery st) <> None)
       \/
       (Page.error (Page.executeQuery st) = None /\
        exists r, Page.result (Page.executeQuery st) = Some r /\
                  1 <= Page.rowsReturned r))
  end /\
  Page.query (Page.executeQuery st) = Page.query st /\
  Page.fileName (Page.executeQuery st) = Page.fileName st /\
  Page.sqliteReady (Page.executeQuery st) = Page.sqliteReady st.
Proof.
  unfold Page.executeQuery, Page.executeDisabled.
  destruct (Page.db st) as [d|] eqn:Hd.
  - destruct (Page.isSelectQuery (Page.query st)).
    + destruct (Page.selectObjects Value api d (Page.query st))
        as [[err|[|row0 rows]] d']; cbn;
        (split; [split; [reflexivity|]; split; [discriminate|] | auto]).
      * left. split; [reflexivity | discriminate].
      * right. split; [reflexivity|]. eexists. split; [reflexivity|].
        unfold Page.rowsReturned. simpl. lia.
      * right. split; [reflexivity|]. eexists. split; [reflexivity|].
        unfold Page.rowsReturned. simpl. lia.
    + destruct (Page.exec Value api d (Page.query st)) as [[err|] d'].
      * cbn. split; [split; [reflexivity|]; split; [discriminate|] | auto].
        left. split; [reflexivity | discriminate].
      * destruct (Page.changes Value api d') as [err|n]; cbn;
          (split; [split; [reflexivity|]; split; [discriminate|] | auto]).
        -- left. split; [reflexivity | discriminate].
        -- right. split; [reflexivity|]. eexists. split; [reflexivity|].
           unfold Page.rowsReturned. simpl. lia.
  - cbn. auto 10.
Qed.

(** X14: when [selectObjects] returns rows, the result table has one
    table row per row, in order, its columns are the property names of
    the first row, and each table row has one cell per property of its
    row: when every row has as many properties as the first, every table
    row has as many cells as there are columns.  When it returns no row,
    the table is the single message cell, shown as one row. *)
Theorem executeQuery_result_table (Value : Type) (api : Page.Database Value)
    (st : Page.State Value api) (d d' : Page.DB Value api)
    (rows : list (Page.Row Value)) :
  Page.db st = Some d ->
  Page.isSelectQuery (Page.query st) = true ->
  Page.selectObjects Value api d (Page.query st) = (inr rows, d') ->
  exists r,
    Page.result (Page.executeQuery st) = Some r /\
    Page.error (Page.executeQuery st) = None /\
    Page.db (Page.executeQuery st) = Some d' /\
    Page.rowsReturned r = Nat.max 1 (List.length rows) /\
    match rows with
    | [] => Page.columns r = ["Result"] /\
            Page.values r = [[Page.Message "Query returned no rows"]]
    | row0 :: _ =>
        Page.columns r = map fst row0 /\
        Page.values r = map (fun row => map (fun kv => Page.FromRow (snd kv)) row) rows /\
        ((forall row, In row rows -> List.length row = List.length row0) ->
         Forall (fun cells => List.length cells = List.length (Page.columns r))
           (Page.values r))
    end.
Proof.
  intros Hd Hs Hr. unfold Page.executeQuery. rewrite Hd, Hs, Hr.
  destruct rows as [|row0 rows].
  - eexists. cbn. repeat split; reflexivity.
  - eexists. cbn [Page.succeeded Page.result Page.error Page.db].
    split; [reflexivity|]. split; [reflexivity|]. split; [reflexivity|].
    unfold Page.rowsReturned, Page.tableOfRows. cbn [Page.values Page.columns].
    split; [rewrite length_map; simpl; lia|].
    split; [reflexivity|]. split; [reflexivity|].
    intros Hall. apply Forall_forall. intros cells Hin.
    apply in_map_iff in Hin. destruct Hin as (row & <- & Hin).
    rewrite !length_map. apply Hall. assumption.
Qed.

Lemma parsed_queries_are_selected_witness :
  Page.isSelectQuery " select Name, Salary from EMPLOYEE" = true.
Proof.
  exact (proj1 (parsed_queries_are_selected nat sampleDatabase sampleState 0
                  (mkParsedQuery "SELECT" ["EMPLOYEE"] ["Name"; "Salary"]
                     [] [] [] [] [])
                  eq_refl eq_refl)).
Defined.

Lemma executeQuery_result_table_witness :
  exists r,
    Page.result (Page.executeQuery sampleState) = Some r /\
    Page.error (Page.executeQuery sampleState) = None /\
    Page.db (Page.executeQuery sampleState) = Some 0 /\
    Page.rowsReturned r = 2 /\
    Page.columns r = ["Name"; "Salary"] /\
    Page.values r = [[Page.FromRow 1; Page.FromRow 2]; [Page.FromRow 3; Page.FromRow 4]] /\
    ((forall row, In row [[("Name", 1); ("Salary", 2)]; [("Name", 3); ("Salary", 4)]] ->
                  List.length row = 2) ->
     Forall (fun cells => List.length cells = List.length (Page.columns r))
       (Page.values r)).
Proof.
  exact (executeQuery_result_table nat sampleDatabase sampleState 0 0
           [[("Name", 1); ("Salary", 2)]; [("Name", 3); ("Salary", 4)]]
           eq_refl eq_refl eq_refl).
Defined.

(** ** Lists are split at every comma *)

Lemma split_on_count (d : char) (s : string) :
  List.length (split_on d s) = S (count_char d s).
Proof.
  induction s as [|c s IH]; [reflexivity|]. simpl.
  destruct (Char.eqb c d); simpl; [congruence|].
  pose proof (split_on_length d s) as Hl.
  destruct (split_on d s); simpl in *; [lia | assumption].
Qed.

Lemma parseColumns_count (cs : string) :
  List.length (parseColumns cs) = S (count_char "," cs).
Proof.
  unfold parseColumns. destruct (cs =? "*") eqn:E.
  - apply string_eqb_eq in E. subst. reflexivity.
  - rewrite length_map. apply split_on_count.
Qed.

(** X15: the SELECT, FROM, GROUP BY and ORDER BY lists are split at
    every comma of the captured text, whether or not it stands inside
    parentheses: each list has one element more than its text has
    commas. *)
Theorem lists_split_at_every_comma (q : string) (p : ParsedQuery) :
  parseSQL q = Some p ->
  (exists sm cs, search selectRe (trim q) = Some sm /\ group sm 1 = Some cs /\
                 List.length (columns p) = S (count_char "," cs)) /\
  (exists fm ts, search fromRe (trim q) = Some fm /\ group fm 1 = Some ts /\
                 List.length (tables p) = S (count_char "," ts)) /\
  (forall m v, search groupByRe (trim q) = Some m -> group m 1 = Some v ->
               List.length (groupBy p) = S (count_char "," v)) /\
  (forall m v, search orderByRe (trim q) = Some m -> group m 1 = Some v ->
               List.length (orderBy p) = S (count_char "," v)).
Proof.
  unfold parseSQL. cbv zeta.
  destruct (negb (startsWith (toUpperCase (trim q)) "SELECT")); [discriminate|].
  destruct (parseSQL_try_inv (trim q)) as
    [(_ & Ht) | (sm & fm & cs & ts & conds & js & gb & ob & hv &
                 Hs & Hcs & Hf & Hts & _ & _ & Hg & Ho & _ & Ht)];
    rewrite Ht; intros H; [discriminate|].
  injection H as <-. cbn [columns tables groupBy orderBy].
  split; [exists sm, cs; repeat split; try assumption; apply parseColumns_count|].
  split; [exists fm, ts; repeat split; try assumption;
          rewrite length_map; apply split_on_count|].
  apply clause_value in Hg; [|reflexivity].
  apply clause_value in Ho; [|reflexivity].
  split; intros m v Hm Hv.
  - rewrite Hm in Hg. destruct Hg as (v' & Hv' & ->).
    rewrite Hv in Hv'. injection Hv' as <-.
    rewrite length_map. apply split_on_count.
  - rewrite Hm in Ho. destruct Ho as (v' & Hv' & ->).
    rewrite Hv in Hv'. injection Hv' as <-.
    rewrite length_map. apply split_on_count.
Qed.

Lemma lists_split_at_every_comma_witness :
  exists sm cs,
    search selectRe (trim "select coalesce(a, b) from T") = Some sm /\
    group sm 1 = Some cs /\
    List.length ["coalesce(a"; "b)"] = S (count_char "," cs).
Proof.
  exact (proj1 (lists_split_at_every_comma "select coalesce(a, b) from T"
                  (mkParsedQuery "SELECT" ["T"] ["coalesce(a"; "b)"] [] [] [] [] [])
                  eq_refl)).
Defined.

(** ** White space and letters outside ASCII *)

(** A no-break space separates tokens and is trimmed like a space, in a
    FROM item, a SELECT item, an ORDER BY item, before a keyword and in a
    printed join condition; a direction is compared in upper case, the
    long s (U+017F) of [deſc] being a small S; a query of white space
    only shows no panel. *)
Lemma white_space_outside_ascii :
  parseTable ("EMPLOYEE" ++ NBSP ++ "e") = "EMPLOYEE" /\
  parseColumn ("e.Name" ++ NBSP ++ "n") = "Name" /\
  parseOrderItem ("a" ++ NBSP ++ "DESC") = mkOrderItem "a" "DESC" /\
  parseOrderItem "a deſc" = mkOrderItem "a" "DESC" /\
  convert ("SELECT * FROM A JOIN B ON A.k = B.k" ++ NBSP ++ "WHERE A.x = 1")
    = Some "σ[A.x = 1]((A ⋈[A.k = B.k] B))" /\
  collapse_ws ("a" ++ NBSP ++ NBSP ++ "b") = "a b" /\
  Converter.onQueryChange NBSP (Converter.mkState "π[a](t)" None false)
    = Converter.mkState "" None false.
Proof. repeat split; vm_compute; reflexivity. Qed.

(** [toUpperCase] maps code points, not code units: one letter may become
    two, and a letter outside the Basic Multilingual Plane is mapped
    through its surrogate pair. *)
Lemma toUpperCase_examples :
  toUpperCase "select" = "SELECT" /\
  toUpperCase "straße" = "STRASSE" /\
  toUpperCase "ſ" = "S" /\
  toUpperCase "𐐨" = "𐐀" /\
  String.length (toUpperCase "𐐨") = 2.
Proof. repeat split; vm_compute; reflexivity. Qed.
